(** * Ad segment detection engine

    A shallow embedding of the detection core of the video ad detector
    ([app/frame_classifier.py], [app/model_loader.py] and the analysis
    part of [app/gui.py]) together with the properties of its scoring,
    map-merging and decision stages.

    Conventions of the embedding.
    - A Python [float] is a canonical rational [Qc]: every finite binary64
      value is a rational, comparisons agree with the rational order, and
      arithmetic is taken exact (rounding is abstracted).
    - A Python [int] is a [Z].
    - A Python call either returns or raises: [result A].  Loops whose
      termination depends on the arguments take a [fuel] bound on the
      number of evaluations of the loop condition and answer [None] when
      it is exhausted.
    - The exceptions of the embedding are those the embedded statements
      raise themselves (a division by zero, a missing key, attribute or
      index).  A model is a loaded network, and the failures of OpenCV,
      torch and the file system are outside the embedding.
    - Where rounding decides what happens (how many times a loop steps,
      the last digit of a score), a property is stated over what the
      loop has read and summed, not over times or values computed in
      exact arithmetic. *)

From Stdlib Require Import ZArith QArith Qcanon Qround Lqa Lia.
From Stdlib Require Import Ascii Decimal DecimalString DecimalN DecimalZ.
From stdpp Require Import gmap strings list.

Local Open Scope Qc_scope.

(** ** Python runtime *)

Module Py.

Inductive exn : Type :=
| ZeroDivisionError
| AttributeError
| KeyError
| IndexError.

Inductive result (A : Type) : Type :=
| Returned (a : A)
| Raised (e : exn).
Global Arguments Returned {A} a.
Global Arguments Raised {A} e.

Global Instance exn_eq_dec : EqDecision exn.
Proof. solve_decision. Defined.
Global Instance result_eq_dec `{EqDecision A} : EqDecision (result A).
Proof. solve_decision. Defined.

Global Instance result_ret : MRet result := fun A a => Returned a.
Global Instance result_bind : MBind result := fun A B k r =>
  match r with
  | Returned a => k a
  | Raised e => Raised e
  end.

(** [x / y] on floats (and the true division of two ints). *)
Definition truediv (x y : Qc) : result Qc :=
  if decide (y = 0) then Raised ZeroDivisionError else Returned (x / y).

(** [l[i]] for a list and a non-negative index. *)
Definition getitem {A} (l : list A) (i : nat) : result A :=
  match l !! i with
  | Some a => Returned a
  | None => Raised IndexError
  end.

(** [d[k]] for a dict. *)
Definition dict_getitem `{Countable K} {V} (d : gmap K V) (k : K) : result V :=
  match d !! k with
  | Some v => Returned v
  | None => Raised KeyError
  end.

End Py.

Import Py.

(** Float literals used by the sources. *)
Definition f0_5 : Qc := Q2Qc (1 # 2).
Definition f12_5 : Qc := Q2Qc (25 # 2).
Definition f10 : Qc := Qc_of_Z 10.
Definition f100 : Qc := Qc_of_Z 100.
Definition f1000 : Qc := Qc_of_Z 1000.

(** ** cv2.VideoCapture

    A video file is the partial map from a position in milliseconds to the
    frame decoded there; [None] is the end of the stream (or a file that
    cannot be read).  The capture remembers the positions it was asked to
    seek to, oldest first. *)

Section FrameClassifier.

Context {Frame Tensor : Type}.

Definition Video : Type := Qc -> option Frame.

Record VideoCapture : Type := mkCapture {
  cap_video : Video;
  cap_pos_msec : Qc;
  cap_seeks : list Qc;
  cap_released : bool
}.

(** [cv2.VideoCapture(video_path)] *)
Definition VideoCapture_open (video : Video) : VideoCapture :=
  mkCapture video 0 [] false.

(** [cap.set(cv2.CAP_PROP_POS_MSEC, msec)] *)
Definition cap_set_pos_msec (cap : VideoCapture) (msec : Qc) : VideoCapture :=
  mkCapture (cap_video cap) msec (cap_seeks cap ++ [msec]) (cap_released cap).

(** [ret, frame = cap.read()]: [Some frame] when [ret] is true. *)
Definition cap_read (cap : VideoCapture) : option Frame :=
  if cap_released cap then None else cap_video cap (cap_pos_msec cap).

(** [cap.release()] *)
Definition cap_release (cap : VideoCapture) : VideoCapture :=
  mkCapture (cap_video cap) (cap_pos_msec cap) (cap_seeks cap) true.

(** ** classify_frame

    [transform] is the fixed preprocessing pipeline (colour conversion,
    resize to 224x224, scaling, normalisation) and a model maps the
    preprocessed tensor to its row of class scores.  [torch_max_dim1]
    is [torch.max(outputs, 1)] on that single row: the maximal value and
    the index of its first occurrence. *)

Variable transform : Frame -> Tensor.

Definition Model : Type := Tensor -> list Qc.

Fixpoint torch_max_from (best : Qc) (best_i i : nat) (row : list Qc) : Qc * nat :=
  match row with
  | [] => (best, best_i)
  | x :: row' =>
      if decide (best < x) then torch_max_from x i (S i) row'
      else torch_max_from best best_i (S i) row'
  end.

Definition torch_max_dim1 (outputs : list Qc) : Qc * nat :=
  match outputs with
  | [] => (0, O)
  | x :: row => torch_max_from x O 1%nat row
  end.

Definition classify_frame (frame : Frame) (model : Model) : Z :=
  let image_tensor := transform frame in
  let outputs := model image_tensor in
  let '(_, predicted) := torch_max_dim1 outputs in
  Z.of_nat predicted.

(** ** process_video_segments *)

Record counters : Type := mkCounters {
  total_frames : Z;
  ad_frames : Z;
  frame_count : Z;
  current_time : Qc
}.

Fixpoint process_video_segments_loop (fuel : nat) (cap : VideoCapture)
    (model : Model) (end_time frame_interval : Qc) (st : counters)
    : option (counters * VideoCapture) :=
  match fuel with
  | O => None
  | S fuel' =>
      if decide (current_time st ≤ end_time) then
        let cap := cap_set_pos_msec cap (current_time st * f1000) in
        match cap_read cap with
        | None => Some (st, cap)
        | Some frame =>
            let total_frames := (total_frames st + 1)%Z in
            let label := classify_frame frame model in
            let ad_frames :=
              if decide (label = 0%Z) then (ad_frames st + 1)%Z else ad_frames st in
            let current_time := current_time st + frame_interval in
            let frame_count := (frame_count st + 1)%Z in
            process_video_segments_loop fuel' cap model end_time frame_interval
              (mkCounters total_frames ad_frames frame_count current_time)
        end
      else Some (st, cap)
  end.

Definition process_video_segments (fuel : nat) (video_path : Video)
    (model : Model) (start_time end_time frame_interval : Qc)
    : option (result Qc) :=
  let cap := VideoCapture_open video_path in
  '(st, cap) ← process_video_segments_loop fuel cap model end_time frame_interval
                 (mkCounters 0 0 0 start_time);
  let cap := cap_release cap in
  let ad_percentage :=
    if decide (0 < total_frames st)%Z
    then q ← truediv (Qc_of_Z (ad_frames st)) (Qc_of_Z (total_frames st));
         mret (q * f100)
    else mret 0 in
  Some ad_percentage.

(** ** process_video_segments_weigth *)

Record weights : Type := mkWeights {
  total_weighted_value : Qc;
  total_weight : Qc;
  w_current_time : Qc
}.

Fixpoint process_video_segments_weigth_loop (fuel : nat) (cap : VideoCapture)
    (model : Model) (start_time end_time frame_interval segment_duration : Qc)
    (st : weights) : option (result (weights * VideoCapture)) :=
  match fuel with
  | O => None
  | S fuel' =>
      if decide (w_current_time st ≤ end_time) then
        let cap := cap_set_pos_msec cap (w_current_time st * f1000) in
        match cap_read cap with
        | None => Some (Returned (st, cap))
        | Some frame =>
            match truediv (w_current_time st - start_time) segment_duration with
            | Raised e => Some (Raised e)
            | Returned frame_position =>
                let weight := frame_position in
                let label := classify_frame frame model in
                let total_weight := total_weight st + weight in
                let total_weighted_value :=
                  if decide (label = 0%Z) then total_weighted_value st + weight
                  else total_weighted_value st in
                let current_time := w_current_time st + frame_interval in
                process_video_segments_weigth_loop fuel' cap model start_time end_time
                  frame_interval segment_duration
                  (mkWeights total_weighted_value total_weight current_time)
            end
        end
      else Some (Returned (st, cap))
  end.

Definition process_video_segments_weigth (fuel : nat) (video_path : Video)
    (model : Model) (start_time end_time frame_interval : Qc)
    : option (result Qc) :=
  let cap := VideoCapture_open video_path in
  let segment_duration := end_time - start_time in
  r ← process_video_segments_weigth_loop fuel cap model start_time end_time
        frame_interval segment_duration (mkWeights 0 0 start_time);
  Some ('(st, cap) ← r;
        let cap := cap_release cap in
        if decide (0 < total_weight st)
        then q ← truediv (total_weighted_value st) (total_weight st);
             mret (q * f100)
        else mret 0).

(** ** process_video_segments_after_ *)

Fixpoint process_video_segments_after__loop (fuel : nat) (cap : VideoCapture)
    (model : Model) (end_time frame_interval : Qc) (st : counters)
    : option (counters * VideoCapture) :=
  match fuel with
  | O => None
  | S fuel' =>
      if decide (current_time st ≤ end_time) then
        let cap := cap_set_pos_msec cap (current_time st * f1000) in
        match cap_read cap with
        | None => Some (st, cap)
        | Some frame =>
            let total_frames := (total_frames st + 1)%Z in
            let label := classify_frame frame model in
            let ad_frames :=
              if decide (label = 0%Z) then (ad_frames st + 1)%Z else ad_frames st in
            let current_time := current_time st + frame_interval in
            let frame_count := (frame_count st + 1)%Z in
            process_video_segments_after__loop fuel' cap model end_time frame_interval
              (mkCounters total_frames ad_frames frame_count current_time)
        end
      else Some (st, cap)
  end.

Definition process_video_segments_after_ (fuel : nat) (video_path : Video)
    (model : Model) (start_time end_time frame_interval : Qc)
    : option (result Qc) :=
  let cap := VideoCapture_open video_path in
  '(st, cap) ← process_video_segments_after__loop fuel cap model end_time
                 frame_interval (mkCounters 0 0 0 start_time);
  let cap := cap_release cap in
  let ad_percentage :=
    if decide (0 < total_frames st)%Z
    then q ← truediv (Qc_of_Z (ad_frames st)) (Qc_of_Z (total_frames st));
         mret (q * f100)
    else mret 0 in
  Some ad_percentage.

(** ** detect_ad_scenes_from_segments_and_get_all_results

    The dict is keyed by the [(start, end)] tuple of the scene; the
    sampling interval is the default of the scoring function. *)

Definition Scene : Type := (Qc * Qc)%type.

Fixpoint detect_ad_scenes_from_segments_and_get_all_results_loop (fuel : nat)
    (video_path : Video) (scenes : list Scene) (model : Model)
    (result_dict : gmap Scene Qc) : option (result (gmap Scene Qc)) :=
  match scenes with
  | [] => Some (Returned result_dict)
  | (start_time, end_time) :: scenes' =>
      match process_video_segments_after_ fuel video_path model start_time end_time
              f0_5 with
      | None => None
      | Some (Raised e) => Some (Raised e)
      | Some (Returned res) =>
          detect_ad_scenes_from_segments_and_get_all_results_loop fuel video_path
            scenes' model (<[(start_time, end_time) := res]> result_dict)
      end
  end.

Definition detect_ad_scenes_from_segments_and_get_all_results (fuel : nat)
    (video_path : Video) (scenes : list Scene) (model : Model)
    : option (result (gmap Scene Qc)) :=
  detect_ad_scenes_from_segments_and_get_all_results_loop fuel video_path scenes
    model ∅.

End FrameClassifier.

(** ** gui.VideoAnalyzerApp: the analysis pass

    [running n] is the value of [self.worker._is_running] the [n]-th time
    the analysis reads it; the counter of reads is threaded through the
    three loops.  A future is the outcome of the task it was submitted
    with; [None] is a task that never finishes. *)

Section Gui.

Context {Frame Tensor : Type}.
Variable transform : Frame -> Tensor.
Variable running : nat -> bool.

Definition _is_advertisement (model_score base_thresh boost : Qc)
    (is_isolated : bool) : bool :=
  let adjusted_thresh := if is_isolated then base_thresh else base_thresh - boost in
  bool_decide (adjusted_thresh ≤ model_score).

Definition Future : Type := option (result (gmap Scene Qc)).

(** Lines 192-202: one task per scene, submitted in scene order. *)
Fixpoint _analyze_video_submit (fuel : nat) (video_path : @Video Frame)
    (model_swin : @Model Tensor) (tick : nat) (scenes : list Scene)
    (futures : list Future) : list Future * nat :=
  match scenes with
  | [] => (futures, tick)
  | scene :: scenes' =>
      if negb (running tick) then (futures, S tick)
      else
        let future :=
          detect_ad_scenes_from_segments_and_get_all_results transform fuel
            video_path [scene] model_swin in
        _analyze_video_submit fuel video_path model_swin (S tick) scenes'
          (futures ++ [future])
  end.

(** Lines 204-208: [preds.update(future.result())] in submission order. *)
Fixpoint _analyze_video_collect (tick : nat) (futures : list Future)
    (preds : gmap Scene Qc) : option (result (gmap Scene Qc * nat)) :=
  match futures with
  | [] => Some (Returned (preds, tick))
  | future :: futures' =>
      if negb (running tick) then Some (Returned (preds, S tick))
      else
        match future with
        | None => None
        | Some (Raised e) => Some (Raised e)
        | Some (Returned d) => _analyze_video_collect (S tick) futures' (d ∪ preds)
        end
  end.

(** Lines 190-208: the [with ThreadPoolExecutor(...)] block; leaving it
    waits for every submitted task. *)
Definition _analyze_video_score (fuel : nat) (video_path : @Video Frame)
    (model_swin : @Model Tensor) (tick : nat) (scenes : list Scene)
    : option (result (gmap Scene Qc * nat)) :=
  let '(futures, tick) :=
    _analyze_video_submit fuel video_path model_swin tick scenes [] in
  r ← _analyze_video_collect tick futures ∅;
  if forallb (fun future : Future => bool_decide (is_Some future)) futures
  then Some r else None.

(** Line 213: [[preds[(start, end)] for (start, end) in scenes]]. *)
Fixpoint _analyze_video_scores (preds : gmap Scene Qc) (scenes : list Scene)
    : result (list Qc) :=
  match scenes with
  | [] => mret []
  | (start_time, end_time) :: scenes' =>
      score ← dict_getitem preds (start_time, end_time);
      scores ← _analyze_video_scores preds scenes';
      mret (score :: scores)
  end.

(** Lines 218-234: the loop over [enumerate(scores)]; [rest] is what is
    left of [scores] from index [i] on. *)
Fixpoint _analyze_video_decide (tick : nat) (scenes : list Scene)
    (scores : list Qc) (base_thresh boost : Qc) (i : nat) (rest : list Qc)
    (preds_final : list Scene) : result (list Scene) :=
  match rest with
  | [] => mret preds_final
  | score :: rest' =>
      if negb (running tick) then mret preds_final
      else
        prev_ad ← (if bool_decide (0 < Z.of_nat i)%Z
                   then s ← getitem scores (i - 1);
                        mret (bool_decide (base_thresh ≤ s))
                   else mret false);
        next_ad ← (if bool_decide (Z.of_nat i < Z.of_nat (length scores) - 1)%Z
                   then s ← getitem scores (i + 1);
                        mret (bool_decide (base_thresh ≤ s))
                   else mret false);
        let is_isolated := negb prev_ad && negb next_ad in
        let is_ad := _is_advertisement score base_thresh boost is_isolated in
        preds_final ← (if is_ad
                       then scene ← getitem scenes i; mret (preds_final ++ [scene])
                       else mret preds_final);
        _analyze_video_decide (S tick) scenes scores base_thresh boost (S i) rest'
          preds_final
  end.

(** [_analyze_video], from the loaded model and the detected scenes on
    (the results of lines 185 and 186 are its arguments here). *)
Definition _analyze_video (fuel : nat) (video_path : @Video Frame)
    (model_swin : @Model Tensor) (scenes : list Scene)
    : option (result (list Scene)) :=
  if bool_decide (scenes = []) then Some (Returned [])
  else
    r ← _analyze_video_score fuel video_path model_swin 0 scenes;
    Some ('(preds, tick) ← r;
          if bool_decide (preds = ∅) then mret []
          else
            scores ← _analyze_video_scores preds scenes;
            let base_thresh := f12_5 in
            let boost := f10 in
            _analyze_video_decide tick scenes scores base_thresh boost 0 scores []).

End Gui.

(** ** model_loader *)

(** [s.replace(old, new)] for a non-empty [old]: every occurrence, left to
    right, without overlap. *)
Fixpoint str_replace_go (fuel : nat) (old new s : string) : string :=
  match fuel with
  | O => s
  | S fuel' =>
      if String.prefix old s
      then new +:+ str_replace_go fuel' old new
                     (String.substring (String.length old)
                        (String.length s - String.length old) s)
      else match s with
           | EmptyString => EmptyString
           | String c s' => String c (str_replace_go fuel' old new s')
           end
  end.

Definition str_replace (s old new : string) : string :=
  str_replace_go (String.length s) old new s.

(** [x.replace(old, new)] where [x] is a [str] or [None]. *)
Definition method_replace (x : option string) (old new : string) : result string :=
  match x with
  | Some s => Returned (str_replace s old new)
  | None => Raised AttributeError
  end.

Definition AVAILABLE_MODELS : gmap string string :=
  {[ "Swin" := "../models/ad_classifier_swin.pth" ]}.

Section ModelLoader.

(** The file system, the archive library and the network library are
    outside the repository: a file system state [FS], a network object
    [Net] and the weights read from a file, [StateDict]. *)
Context {FS Net StateDict : Type}.
Variable path_exists : FS -> string -> bool.
Variable dirname : string -> string.
(** [ZipFile(zip_path).extractall(dir)] *)
Variable extractall : FS -> string -> string -> FS.
(** [timm.create_model("swin_tiny_patch4_window7_224", pretrained=True, num_classes=2)] *)
Variable create_model : Net.
(** [torch.load(path, map_location=device)]; [None] when it raises. *)
Variable torch_load : FS -> string -> option StateDict.
(** [model.load_state_dict(sd)]; [None] when it raises. *)
Variable load_state_dict : Net -> StateDict -> option Net.
(** [model.to(device); model.eval()] *)
Variable to_device_eval : Net -> Net.

Record loader_state : Type := mkLoader {
  fs : FS;
  PRELOADED_MODELS : gmap string Net
}.

Definition extract_model_if_needed (st : FS) (zip_path extract_to : string) : FS :=
  if negb (path_exists st extract_to)
  then extractall st zip_path (dirname extract_to)
  else st.

(** [load_model]; the returned [option] is Python's [model or None],
    and [model_path] is [None] when [AVAILABLE_MODELS.get] finds no
    entry.  The test [model_path and model is not None] holds when
    [model_path] is a non-empty string ([create_model] returns a network);
    the archive extraction and [create_model] are taken not to raise. *)
Definition load_model (st : loader_state) (model_name : string)
    : result (option Net) * loader_state :=
  match PRELOADED_MODELS st !! model_name with
  | Some model => (Returned (Some model), st)
  | None =>
      let model_path := AVAILABLE_MODELS !! model_name in
      match method_replace model_path ".pth" ".zip" with
      | Raised e => (Raised e, st)
      | Returned zip_path =>
          let st :=
            if path_exists (fs st) zip_path
            then mkLoader (extract_model_if_needed (fs st) zip_path
                             "../ad_classifier_swin.pth")
                          (PRELOADED_MODELS st)
            else st in
          let model := create_model in
          match model_path with
          | Some path =>
              if bool_decide (path ≠ "") then
                match sd ← torch_load (fs st) path;
                      model ← load_state_dict model sd;
                      Some (to_device_eval model) with
                | None => (Returned None, st)
                | Some model =>
                    (Returned (Some model),
                     mkLoader (fs st)
                       (<[model_name := model]> (PRELOADED_MODELS st)))
                end
              else (Returned None, st)
          | None => (Returned None, st)
          end
      end
  end.

End ModelLoader.

(** ** Sampling instants of a scene range

    The sampling schedule in exact arithmetic: the [k]-th sampling
    instant of a range, the frame obtained there, and the labels of the
    frames obtained.  It is what shows that the loops of the embedding
    finish. *)

Section Sampling.

Context {Frame Tensor : Type}.
Variable transform : Frame -> Tensor.
Variable video : @Video Frame.
Variable model : @Model Tensor.
Variables start_time end_time frame_interval : Qc.

Definition sample_time (k : nat) : Qc :=
  start_time + Qc_of_Z (Z.of_nat k) * frame_interval.

(** The frame obtained at the [k]-th instant: the instant does not
    exceed the end of the range and the source has a frame there. *)
Definition sample (k : nat) : option Frame :=
  if decide (sample_time k ≤ end_time) then video (sample_time k * f1000)
  else None.

Definition sample_label (k : nat) : option Z :=
  (fun frame => classify_frame transform frame model) <$> sample k.

(** Sampling yields the instants [k, k + m) and stops at [k + m]. *)
Definition obtains_from (k m : nat) : Prop :=
  (∀ j, (k ≤ j < k + m)%nat → is_Some (sample j)) ∧ sample (k + m) = None.

Definition obtains (n : nat) : Prop := obtains_from 0 n.

(** Number of instants in [k, k + m) whose frame is labelled 0. *)
Definition ad_count (k m : nat) : nat :=
  length (filter (fun j => sample_label j = Some 0%Z) (seq k m)).

(** The weight of a frame taken at time [t]. *)
Definition weight (t : Qc) : Qc := (t - start_time) / (end_time - start_time).

Definition Qc_sum (l : list Qc) : Qc := foldr Qcplus 0 l.

Definition weight_sum (k m : nat) : Qc :=
  Qc_sum (map (fun j => weight (sample_time j)) (seq k m)).

Definition ad_weight_sum (k m : nat) : Qc :=
  Qc_sum (map (fun j => if decide (sample_label j = Some 0%Z)
                        then weight (sample_time j) else 0) (seq k m)).

(** Positions (in milliseconds) requested when sampling yields the
    instants [k, k + m): those instants, followed by the instant
    [k + m] when it is still inside the range (the read that fails). *)
Definition seeks_from (k m : nat) : list Qc :=
  map (fun j => sample_time j * f1000) (seq k m)
  ++ (if decide (sample_time (k + m) ≤ end_time)
      then [sample_time (k + m) * f1000] else []).

End Sampling.

(** ** What a scoring loop has read

    What a loop did is read off the capture it leaves behind.  The loops
    read once after every seek and stop at the first read that fails, so
    the frames a loop has read are, in order, the frames found at the
    positions it requested.  Properties stated over these frames follow
    the loop's own steps: they do not say at which times the loop
    samples. *)

Definition frames_read {Frame : Type} (cap : @VideoCapture Frame) : list Frame :=
  omap (cap_video cap) (cap_seeks cap).


(** One float operation gives the exact (non-negative) value rounded, a
    relative error of at most [2^-53]. *)
Definition unit_roundoff : Qc := Q2Qc (1 # 9007199254740992).

Definition rounded (exact result : Qc) : Prop :=
  exact * (1 - unit_roundoff) ≤ result ∧ result ≤ exact * (1 + unit_roundoff).

(** The source computes a score with a float division followed by a float
    multiplication.  [within_rounding score exact] leaves room for both
    roundings: the score lies within the relative error [2^-51] of the
    exact (non-negative) value. *)
Definition rounding_error : Qc := Q2Qc (1 # 2251799813685248).

Definition within_rounding (score exact : Qc) : Prop :=
  exact * (1 - rounding_error) ≤ score ∧ score ≤ exact * (1 + rounding_error).

(** ** The decision rule, as a predicate on the score sequence *)

Section DecisionRule.

Variables base_thresh boost : Qc.
Variable s : list Qc.

(** Scene [j] exists and its score reaches the base threshold. *)
Definition strong (j : nat) : Prop :=
  ∃ x, s !! j = Some x ∧ base_thresh ≤ x.

Definition isolated (i : nat) : Prop :=
  ¬ ((0 < i)%nat ∧ strong (i - 1)) ∧ ¬ ((i + 1 < length s)%nat ∧ strong (i + 1)).

Global Instance strong_dec j : Decision (strong j).
Proof.
  unfold strong. destruct (s !! j) as [x|].
  - destruct (decide (base_thresh ≤ x)) as [Hx|Hx].
    + left. by exists x.
    + right. intros (y & [= <-] & Hy). by apply Hx.
  - right. by intros (y & [=] & _).
Defined.

Global Instance isolated_dec i : Decision (isolated i).
Proof. unfold isolated. apply _. Defined.

Definition effective_threshold (i : nat) : Qc :=
  if decide (isolated i) then base_thresh else base_thresh - boost.

Definition classified_ad (i : nat) : Prop :=
  ∃ x, s !! i = Some x ∧ effective_threshold i ≤ x.

Global Instance classified_ad_dec i : Decision (classified_ad i).
Proof.
  unfold classified_ad. destruct (s !! i) as [x|].
  - destruct (decide (effective_threshold i ≤ x)) as [Hx|Hx].
    + left. by exists x.
    + right. intros (y & [= <-] & Hy). by apply Hx.
  - right. by intros (y & [=] & _).
Defined.

(** The scenes whose index is classified as an ad, in scene order;
    [i] is the index of the first scene of the list. *)
Fixpoint ad_subsequence (i : nat) (scenes : list Scene) : list Scene :=
  match scenes with
  | [] => []
  | scene :: scenes' =>
      if decide (classified_ad i) then scene :: ad_subsequence (S i) scenes'
      else ad_subsequence (S i) scenes'
  end.

End DecisionRule.

(** ** The score map, as the merge of one singleton dict per scene *)

Section ScoreMap.

Context {Frame Tensor : Type}.
Variable transform : Frame -> Tensor.
Variable video : @Video Frame.
Variable model : @Model Tensor.
Variable fuel : nat.

(** The score of a scene, as [process_video_segments_after_] returns it
    at the default interval. *)
Definition scene_score (scene : Scene) : Qc :=
  match process_video_segments_after_ transform fuel video model scene.1 scene.2
          f0_5 with
  | Some (Returned score) => score
  | _ => 0
  end.

Definition scene_scored (scene : Scene) : Prop :=
  process_video_segments_after_ transform fuel video model scene.1 scene.2 f0_5
  = Some (Returned (scene_score scene)).

Definition scene_future (scene : Scene) : Future :=
  Some (Returned {[ scene := scene_score scene ]}).

(** The map built by merging the singleton dicts of [scenes] into
    [preds], in order. *)
Definition merged (scenes : list Scene) (preds : gmap Scene Qc)
    : gmap Scene Qc :=
  foldl (fun acc scene => {[ scene := scene_score scene ]} ∪ acc) preds scenes.

End ScoreMap.

(** ** player: time codes

    A [str] is a string of characters with code points below 256.
    [isspace] is the white space that [strip] and [int] skip on such
    characters; [int_] is [int(s)] for a [str], [None] when it raises
    ValueError (the interpreter's limit on the number of digits of a
    converted integer is not reached by the texts considered here). *)

Definition isspace (c : ascii) : bool :=
  let n := nat_of_ascii c in
  ((9 <=? n) && (n <=? 13) || (28 <=? n) && (n <=? 32)
   || (n =? 133) || (n =? 160))%nat.

Fixpoint lstrip (s : string) : string :=
  match s with
  | String c s' => if isspace c then lstrip s' else s
  | EmptyString => EmptyString
  end.

Fixpoint rstrip (s : string) : string :=
  match s with
  | String c s' =>
      match rstrip s' with
      | EmptyString => if isspace c then EmptyString else String c EmptyString
      | rest => String c rest
      end
  | EmptyString => EmptyString
  end.

(** [s.strip()] *)
Definition strip (s : string) : string := rstrip (lstrip s).

(** [c in s] for a one-character string [c]. *)
Fixpoint contains (c : ascii) (s : string) : bool :=
  match s with
  | String c' s' => Ascii.eqb c c' || contains c s'
  | EmptyString => false
  end.

(** [s.split(c)] for a one-character separator [c]. *)
Fixpoint split (c : ascii) (s : string) : list string :=
  match s with
  | String c' s' =>
      if Ascii.eqb c c' then EmptyString :: split c s'
      else match split c s' with
           | part :: parts => String c' part :: parts
           | [] => [String c' EmptyString]
           end
  | EmptyString => [EmptyString]
  end.

Definition isdigit (c : ascii) : bool :=
  let n := nat_of_ascii c in ((48 <=? n) && (n <=? 57))%nat.

(** The digits of an integer literal without its underscores; an
    underscore may only stand between two digits. *)
Fixpoint int_digits (after_digit : bool) (s : string) : option string :=
  match s with
  | EmptyString => if after_digit then Some EmptyString else None
  | String c s' =>
      if isdigit c then String c <$> int_digits true s'
      else if Ascii.eqb c "_" && after_digit then
        match s' with
        | String c' _ => if isdigit c' then int_digits false s' else None
        | EmptyString => None
        end
      else None
  end.

Definition int_unsigned (s : string) : option Z :=
  digits ← int_digits false s;
  d ← NilEmpty.uint_of_string digits;
  Some (Z.of_uint d).

Definition int_ (s : string) : option Z :=
  match strip s with
  | String c s' =>
      if Ascii.eqb c "-" then Z.opp <$> int_unsigned s'
      else if Ascii.eqb c "+" then int_unsigned s'
      else int_unsigned (String c s')
  | EmptyString => None
  end.

(** Every character of the string satisfies [p]. *)
Fixpoint string_forall (p : ascii -> bool) (s : string) : bool :=
  match s with
  | String c s' => p c && string_forall p s'
  | EmptyString => true
  end.

(** [format(n, "0wd")]: the decimal digits of [n], preceded by a minus
    sign when it is negative, with zeros between sign and digits up to
    the width [w]. *)
Definition format_0d (w : nat) (n : Z) : string :=
  let sign := if bool_decide (n < 0)%Z then "-" else "" in
  let digits := NilZero.string_of_uint (N.to_uint (Z.abs_N n)) in
  let zeros := (w - String.length sign - String.length digits)%nat in
  sign +:+ String.string_of_list_ascii (replicate zeros "0"%char) +:+ digits.

(** [x // y] and [x % y] on floats. *)
Definition floordiv (x y : Qc) : result Qc :=
  if decide (y = 0) then Raised ZeroDivisionError
  else Returned (Qc_of_Z (Qfloor (x / y)%Qc)).

Definition mod_ (x y : Qc) : result Qc :=
  if decide (y = 0) then Raised ZeroDivisionError
  else Returned (x - y * Qc_of_Z (Qfloor (x / y)%Qc)).

(** [int(x)] for a float: truncation towards zero. *)
Definition int_of_float (x : Qc) : Z :=
  if decide (0 ≤ x) then Qfloor x else Qceiling x.

Definition f60 : Qc := Qc_of_Z 60.

Definition format_time (seconds : Qc) : result string :=
  q ← floordiv seconds f60;
  let minutes := int_of_float q in
  r ← mod_ seconds f60;
  let secs := int_of_float r in
  mret (format_0d 2 minutes +:+ ":" +:+ format_0d 2 secs).

(** [list(map(int, parts))], [None] when one of the conversions raises
    ValueError. *)
Fixpoint map_int (parts : list string) : option (list Z) :=
  match parts with
  | [] => Some []
  | part :: parts' =>
      n ← int_ part;
      ns ← map_int parts';
      Some (n :: ns)
  end.

(** [parse_time]; the result is Python's [int or None]. *)
Definition parse_time (text : string) : option Z :=
  let text := strip text in
  if contains ":" text then
    let parts := split ":" text in
    match map_int parts with
    | None => None
    | Some parts =>
        match parts with
        | [minutes; seconds] => Some (minutes * 60 + seconds)%Z
        | [part] => Some part
        | _ => None
        end
    end
  else
    int_ text.

(** ** player.AdSlider: the ad segments drawn on the groove *)

Record QRect : Type := mkQRect {
  rect_x : Z;
  rect_y : Z;
  rect_width : Z;
  rect_height : Z
}.

Fixpoint _calculate_segments_loop (groove_rect : QRect) (width_multiplier : Qc)
    (ad_timestamps : list Scene) (segments : list QRect) : list QRect :=
  match ad_timestamps with
  | [] => segments
  | (start_time, end_time) :: ad_timestamps' =>
      let start_pos := int_of_float (start_time * width_multiplier) in
      let end_pos := int_of_float (end_time * width_multiplier) in
      let segment_rect :=
        mkQRect (rect_x groove_rect + start_pos) (rect_y groove_rect)
          (end_pos - start_pos) (rect_height groove_rect) in
      _calculate_segments_loop groove_rect width_multiplier ad_timestamps'
        (segments ++ [segment_rect])
  end.

Definition _calculate_segments (ad_timestamps : list Scene) (total_duration : Qc)
    (groove_rect : QRect) : result (list QRect) :=
  if bool_decide (ad_timestamps = []) || bool_decide (total_duration = 0)
  then mret []
  else
    let segments := [] in
    let groove_width := rect_width groove_rect in
    width_multiplier ← truediv (Qc_of_Z groove_width) total_duration;
    mret (_calculate_segments_loop groove_rect width_multiplier ad_timestamps
            segments).

(** ** frame_classifier: the sequential detectors

    What is printed or written to the log file is kept as a list of
    lines, oldest first; a line holds the values that are formatted into
    it.  The scene list of [detect_ad_scenes_from_segments] is what
    [detect_scenes(video_path)] returned. *)

Inductive output_line : Type :=
| AnalyzeBy (name : string)
| ScoreLine (name : string) (start_time end_time score : Qc).

Section Detectors.

Context {Frame Tensor : Type}.
Variable transform : Frame -> Tensor.

(** Lines 110-114: the loop of [detect_ad_scenes_from_segments]. *)
Fixpoint detect_ad_scenes_from_segments_loop (fuel : nat) (video_path : @Video Frame)
    (model : @Model Tensor) (name : string) (threshold : Qc) (scenes : list Scene)
    (res : list Scene) (stdout : list output_line)
    : option (result (list Scene) * list output_line) :=
  match scenes with
  | [] => Some (Returned res, stdout)
  | (start_time, end_time) :: scenes' =>
      match process_video_segments_after_ transform fuel video_path model start_time
              end_time f0_5 with
      | None => None
      | Some (Raised e) => Some (Raised e, stdout)
      | Some (Returned score) =>
          let stdout := stdout ++ [ScoreLine name start_time end_time score] in
          let res :=
            if decide (threshold < score) then res ++ [(start_time, end_time)]
            else res in
          detect_ad_scenes_from_segments_loop fuel video_path model name threshold
            scenes' res stdout
      end
  end.

Definition detect_ad_scenes_from_segments (fuel : nat) (video_path : @Video Frame)
    (scenes : list Scene) (model : @Model Tensor) (name : string) (threshold : Qc)
    (stdout : list output_line) : option (result (list Scene) * list output_line) :=
  let res := [] in
  let stdout := stdout ++ [AnalyzeBy name] in
  detect_ad_scenes_from_segments_loop fuel video_path model name threshold scenes
    res stdout.

(** [detect_ad_scenes_from_segments_and_get_all_results_to_logs]; every
    line is flushed as it is written, so the log keeps what was written
    before an exception. *)
Fixpoint detect_ad_scenes_from_segments_and_get_all_results_to_logs_loop
    (fuel : nat) (video_path : @Video Frame) (scenes : list Scene)
    (model : @Model Tensor) (name : string) (log_file : list output_line)
    (result_dict : gmap Scene Qc)
    : option (result (gmap Scene Qc) * list output_line) :=
  match scenes with
  | [] => Some (Returned result_dict, log_file)
  | (start_time, end_time) :: scenes' =>
      match process_video_segments_weigth transform fuel video_path model start_time
              end_time f0_5 with
      | None => None
      | Some (Raised e) => Some (Raised e, log_file)
      | Some (Returned score) =>
          let log_file := log_file ++ [ScoreLine name start_time end_time score] in
          detect_ad_scenes_from_segments_and_get_all_results_to_logs_loop fuel
            video_path scenes' model name log_file
            (<[(start_time, end_time) := score]> result_dict)
      end
  end.

Definition detect_ad_scenes_from_segments_and_get_all_results_to_logs
    (fuel : nat) (video_path : @Video Frame) (scenes : list Scene)
    (model : @Model Tensor) (name : string) (log_file : list output_line)
    : option (result (gmap Scene Qc) * list output_line) :=
  detect_ad_scenes_from_segments_and_get_all_results_to_logs_loop fuel video_path
    scenes model name log_file ∅.

(** The weighted score of a scene at the default interval. *)
Definition scene_weighted_score (fuel : nat) (video : @Video Frame)
    (model : @Model Tensor) (scene : Scene) : Qc :=
  match process_video_segments_weigth transform fuel video model scene.1 scene.2
          f0_5 with
  | Some (Returned score) => score
  | _ => 0
  end.

Definition scene_weighted_scored (fuel : nat) (video : @Video Frame)
    (model : @Model Tensor) (scene : Scene) : Prop :=
  process_video_segments_weigth transform fuel video model scene.1 scene.2 f0_5
  = Some (Returned (scene_weighted_score fuel video model scene)).

End Detectors.

(** ** Sample inputs

    Frames and tensors are numbers and the preprocessing is the identity.
    [demo_video] lasts two seconds and shows frame 0 during its first
    600 ms and frame 1 afterwards; [first_frame_video] shows frame 0 at
    position 0 only; [still_video] shows frame 0 forever.  [demo_model]
    scores frame 0 as class 0 and every other frame as class 1;
    [content_model] scores every frame as class 1. *)

Definition demo_transform : nat -> nat := id.

Definition demo_video : @Video nat := fun msec =>
  if decide (msec ≤ Qc_of_Z 2000)
  then Some (if decide (msec ≤ Qc_of_Z 600) then 0%nat else 1%nat)
  else None.

Definition first_frame_video : @Video nat := fun msec =>
  if decide (msec ≤ Qc_of_Z 2000)
  then Some (if decide (msec = 0) then 0%nat else 1%nat)
  else None.

Definition still_video : @Video nat := fun _ => Some 0%nat.

Definition demo_model : @Model nat := fun tensor =>
  match tensor with
  | O => [1; 0]
  | S _ => [0; 1]
  end.

Definition content_model : @Model nat := fun _ => [0; 1].

(** * Properties *)

(** Closed goals are settled by evaluation. *)
Ltac by_evaluation := apply (bool_decide_unpack _); vm_compute; exact I.

(** ** Arithmetic on canonical rationals *)

Lemma Qc_this_plus (x y : Qc) : (this (x + y) == this x + this y)%Q.
Proof. unfold Qcplus. cbn [this Q2Qc]. apply Qred_correct. Qed.

Lemma Qc_this_of_Z (z : Z) : this (Qc_of_Z z) = inject_Z z.
Proof. reflexivity. Qed.

Lemma Qc_this_mult (x y : Qc) : (this (x * y) == this x * this y)%Q.
Proof. unfold Qcmult. cbn [this Q2Qc]. apply Qred_correct. Qed.

Lemma Qc_this_minus (x y : Qc) : (this (x - y) == this x - this y)%Q.
Proof.
  unfold Qcminus, Qcopp. rewrite Qc_this_plus. cbn [this Q2Qc].
  rewrite Qred_correct. reflexivity.
Qed.

Lemma Qc_this_div (x y : Qc) : (this (x / y) == this x / this y)%Q.
Proof.
  unfold Qcdiv, Qcinv. rewrite Qc_this_mult. cbn [this Q2Qc].
  rewrite Qred_correct. reflexivity.
Qed.

Lemma Qc_of_Z_succ (k : nat) : Qc_of_Z (Z.of_nat (S k)) = Qc_of_Z (Z.of_nat k) + 1.
Proof.
  apply Qc_is_canon. rewrite Qc_this_plus, !Qc_this_of_Z, Nat2Z.inj_succ.
  unfold Z.succ. rewrite inject_Z_plus. reflexivity.
Qed.

(** ** The sampling loops *)

Section SamplingLoops.

Context {Frame Tensor : Type}.
Variable transform : Frame -> Tensor.
Variable video : @Video Frame.
Variable model : @Model Tensor.
Variables start_time end_time frame_interval : Qc.

Local Abbreviation instant := (sample_time start_time frame_interval).
Local Abbreviation frame_at := (sample video start_time end_time frame_interval).
Local Abbreviation label_at :=
  (sample_label transform video model start_time end_time frame_interval).
Local Abbreviation yields := (obtains_from video start_time end_time frame_interval).
Local Abbreviation ads :=
  (ad_count transform video model start_time end_time frame_interval).
Local Abbreviation visited := (seeks_from start_time end_time frame_interval).

Lemma sample_time_0 : instant 0 = start_time.
Proof.
  unfold sample_time. change (Z.of_nat 0) with 0%Z. rewrite Z2Qc_inj_0. ring.
Qed.

Lemma sample_time_succ k : instant (S k) = instant k + frame_interval.
Proof. unfold sample_time. rewrite Qc_of_Z_succ. ring. Qed.

Lemma obtains_from_0 k :
  yields k 0 ↔ frame_at k = None.
Proof.
  unfold obtains_from. rewrite Nat.add_0_r. split; [by intros [_ ?]|].
  intros H. split; [lia | done].
Qed.

Lemma obtains_from_succ k m :
  yields k (S m) ↔ is_Some (frame_at k) ∧ yields (S k) m.
Proof.
  unfold obtains_from.
  replace (k + S m)%nat with (S k + m)%nat by lia. split.
  - intros [Hsome Hnone]. split; [apply Hsome; lia|].
    split; [intros j Hj; apply Hsome; lia | done].
  - intros (Hk & Hsome & Hnone). split; [|done].
    intros j Hj. destruct (decide (j = k)) as [->|]; [done|apply Hsome; lia].
Qed.

Lemma sample_Some k frame :
  frame_at k = Some frame →
  instant k ≤ end_time ∧ video (instant k * f1000) = Some frame.
Proof. unfold sample. by case_decide. Qed.

Lemma sample_None k :
  frame_at k = None →
  ¬ instant k ≤ end_time ∨ video (instant k * f1000) = None.
Proof. unfold sample. case_decide; auto. Qed.

Lemma ad_count_succ k m :
  ads k (S m) =
  ((if decide (label_at k = Some 0%Z) then 1 else 0) + ads (S k) m)%nat.
Proof.
  unfold ad_count. cbn [seq]. rewrite filter_cons.
  by case_decide.
Qed.

Lemma seeks_from_succ k m :
  visited k (S m) = instant k * f1000 :: visited (S k) m.
Proof.
  unfold seeks_from. cbn [seq map].
  by replace (k + S m)%nat with (S k + m)%nat by lia.
Qed.

(** The loop of [process_video_segments], started at the [k]-th instant. *)
Lemma process_video_segments_loop_spec m :
  ∀ k fuel cap st,
    cap_video cap = video → cap_released cap = false →
    current_time st = instant k →
    yields k m → (m < fuel)%nat →
    ∃ cap',
      process_video_segments_loop transform fuel cap model end_time
        frame_interval st =
      Some (mkCounters (total_frames st + Z.of_nat m)
                       (ad_frames st + Z.of_nat (ads k m))
                       (frame_count st + Z.of_nat m)
                       (instant (k + m)), cap')
      ∧ cap_seeks cap' = cap_seeks cap ++ visited k m
      ∧ cap_video cap' = video ∧ cap_released cap' = false.
Proof.
  induction m as [|m IH]; intros k fuel cap st Hvid Hrel Htime Hobt Hfuel;
    (destruct fuel as [|fuel]; [lia|]); cbn [process_video_segments_loop].
  - apply obtains_from_0 in Hobt.
    unfold seeks_from; rewrite Nat.add_0_r; cbn [seq map app].
    assert (Hst : mkCounters (total_frames st + Z.of_nat 0)
                    (ad_frames st + Z.of_nat (ads k 0))
                    (frame_count st + Z.of_nat 0) (instant k) = st).
    { destruct st; cbn in *. subst. f_equal; unfold ad_count; cbn; lia. }
    rewrite Hst, Htime. destruct (sample_None _ Hobt) as [Hend|Hnone].
    + rewrite !decide_False by done. eexists; split; [done|].
      by rewrite app_nil_r.
    + destruct (decide (instant k ≤ end_time)) as [Hle|Hle].
      * unfold cap_read; cbn. rewrite Hrel, Hvid, Hnone.
        eexists; split; [done|]. by cbn.
      * eexists; split; [done|]. by rewrite app_nil_r.
  - apply obtains_from_succ in Hobt as [[frame Hframe] Hobt].
    destruct (sample_Some _ _ Hframe) as [Hle Hread].
    rewrite Htime, decide_True by done.
    unfold cap_read; cbn [cap_released cap_set_pos_msec cap_video cap_pos_msec].
    rewrite Hrel, Hvid, Hread.
    edestruct (IH (S k) fuel) as (cap' & -> & Hseeks & Hvid' & Hrel');
      [| | |exact Hobt| |].
    3: { cbn. by rewrite sample_time_succ. }
    1,2: done.
    { lia. }
    exists cap'. cbn [total_frames ad_frames frame_count current_time].
    split; [|split; [|done]].
    + assert (Hlab : label_at k = Some (classify_frame transform frame model))
        by (unfold sample_label; by rewrite Hframe).
      rewrite ad_count_succ.
      replace (k + S m)%nat with (S k + m)%nat by lia.
      do 3 f_equal.
      * lia.
      * destruct (decide (classify_frame transform frame model = 0%Z)) as [Hl|Hl].
        -- rewrite decide_True by (by rewrite Hlab, Hl). lia.
        -- rewrite decide_False by (rewrite Hlab; intros [= ?]; done). lia.
      * lia.
    + rewrite Hseeks, seeks_from_succ. cbn [cap_seeks cap_set_pos_msec].
      by rewrite <- app_assoc.
Qed.

(** The two unweighted loops are the same function. *)
Lemma process_video_segments_after__loop_eq fuel :
  ∀ cap st,
    process_video_segments_after__loop transform fuel cap model end_time
      frame_interval st =
    process_video_segments_loop transform fuel cap model end_time
      frame_interval st.
Proof.
  induction fuel as [|fuel IH]; intros cap st; [done|].
  cbn [process_video_segments_after__loop process_video_segments_loop].
  case_decide; [|done]. destruct (cap_read _); [|done]. apply IH.
Qed.

End SamplingLoops.

(** ** Sampling stops *)

Lemma Qc_archimedean (x : Qc) : ∃ K : nat, x < Qc_of_Z (Z.of_nat K).
Proof.
  exists (Z.to_nat (Z.max 0 (Qfloor x + 1))).
  rewrite Z2Nat.id by lia. unfold Qclt. rewrite Qc_this_of_Z.
  eapply Qlt_le_trans; [apply Qlt_floor|].
  rewrite <- Zle_Qle. lia.
Qed.

Section SamplingStops.

Context {Frame : Type}.
Variable video : @Video Frame.
Variables start_time end_time frame_interval : Qc.

Local Abbreviation instant := (sample_time start_time frame_interval).
Local Abbreviation frame_at := (sample video start_time end_time frame_interval).
Local Abbreviation yields := (obtains_from video start_time end_time frame_interval).

Lemma sample_time_exceeds :
  0 < frame_interval → ∃ K, end_time < instant K.
Proof.
  intros Hpos.
  destruct (Qc_archimedean ((end_time - start_time) / frame_interval)) as [K HK].
  exists K. unfold sample_time.
  apply (Qcmult_lt_compat_r _ _ frame_interval) in HK; [|done].
  replace ((end_time - start_time) / frame_interval * frame_interval)
    with (end_time - start_time) in HK.
  2: { field. intros ->. by apply (Qclt_not_eq 0 0). }
  apply (Qcplus_lt_mono_l _ _ start_time) in HK.
  by replace (start_time + (end_time - start_time)) with end_time in HK by ring.
Qed.

Lemma obtains_from_bounded K :
  ∀ k, frame_at (k + K) = None → ∃ m, (m ≤ K)%nat ∧ yields k m.
Proof.
  induction K as [|K IH]; intros k Hnone.
  - exists O. split; [done|]. split; [lia|done].
  - destruct (frame_at k) as [frame|] eqn:Hk.
    + destruct (IH (S k)) as (m & Hm & Hsome & Hstop).
      { by replace (S k + K)%nat with (k + S K)%nat by lia. }
      exists (S m). split; [lia|]. split.
      * intros j Hj. destruct (decide (j = k)) as [->|]; [by rewrite Hk|].
        apply Hsome. lia.
      * by replace (k + S m)%nat with (S k + m)%nat by lia.
    + exists O. split; [lia|]. split; [lia|]. by rewrite Nat.add_0_r.
Qed.

(** With a positive interval, sampling obtains finitely many frames. *)
Lemma sampling_stops :
  0 < frame_interval → ∃ n, obtains video start_time end_time frame_interval n.
Proof.
  intros Hpos. destruct (sample_time_exceeds Hpos) as [K HK].
  destruct (obtains_from_bounded K O) as (n & _ & Hn); [|by exists n].
  unfold sample. rewrite decide_False; [done|]. by apply Qclt_not_le.
Qed.

(** The number of frames obtained is determined by the range. *)
Lemma obtains_from_unique k m m' : yields k m → yields k m' → m = m'.
Proof.
  intros [H1 H1'] [H2 H2'].
  destruct (Nat.lt_trichotomy m m') as [Hlt|[->|Hlt]]; [|done|].
  - destruct (H2 (k + m)%nat) as [x Hx]; [lia|]. congruence.
  - destruct (H1 (k + m')%nat) as [x Hx]; [lia|]. congruence.
Qed.

End SamplingStops.

(** ** The weighted loop *)

Section WeightedLoop.

Context {Frame Tensor : Type}.
Variable transform : Frame -> Tensor.
Variable video : @Video Frame.
Variable model : @Model Tensor.
Variables start_time end_time frame_interval : Qc.

Local Abbreviation instant := (sample_time start_time frame_interval).
Local Abbreviation frame_at := (sample video start_time end_time frame_interval).
Local Abbreviation label_at :=
  (sample_label transform video model start_time end_time frame_interval).
Local Abbreviation yields := (obtains_from video start_time end_time frame_interval).
Local Abbreviation visited := (seeks_from start_time end_time frame_interval).
Local Abbreviation weight_at := (weight start_time end_time).
Local Abbreviation weights_of := (weight_sum start_time end_time frame_interval).
Local Abbreviation ad_weights_of :=
  (ad_weight_sum transform video model start_time end_time frame_interval).

Lemma truediv_weight t :
  end_time ≠ start_time →
  truediv (t - start_time) (end_time - start_time) = Returned (weight_at t).
Proof.
  intros Hne. unfold truediv. rewrite decide_False; [done|].
  intros H0. apply Hne.
  replace end_time with (end_time - start_time + start_time) by ring.
  rewrite H0. ring.
Qed.

Lemma weight_sum_succ k m :
  weights_of k (S m) = weight_at (instant k) + weights_of (S k) m.
Proof. done. Qed.

Lemma ad_weight_sum_succ k m :
  ad_weights_of k (S m) =
  (if decide (label_at k = Some 0%Z) then weight_at (instant k) else 0)
  + ad_weights_of (S k) m.
Proof. done. Qed.

(** The loop of [process_video_segments_weigth], started at the [k]-th
    instant, on a range that has a duration whenever a frame is read. *)
Lemma process_video_segments_weigth_loop_spec m :
  ∀ k fuel cap st,
    cap_video cap = video → cap_released cap = false →
    w_current_time st = instant k →
    yields k m → (m < fuel)%nat →
    ((0 < m)%nat → end_time ≠ start_time) →
    ∃ cap',
      process_video_segments_weigth_loop transform fuel cap model start_time
        end_time frame_interval (end_time - start_time) st =
      Some (Returned
              (mkWeights (total_weighted_value st + ad_weights_of k m)
                         (total_weight st + weights_of k m)
                         (instant (k + m)), cap'))
      ∧ cap_seeks cap' = cap_seeks cap ++ visited k m.
Proof.
  induction m as [|m IH]; intros k fuel cap st Hvid Hrel Htime Hobt Hfuel Hdur;
    (destruct fuel as [|fuel]; [lia|]); cbn [process_video_segments_weigth_loop].
  - apply obtains_from_0 in Hobt.
    unfold seeks_from; rewrite Nat.add_0_r; cbn [seq map app].
    assert (Hst : mkWeights (total_weighted_value st + ad_weights_of k 0)
                    (total_weight st + weights_of k 0) (instant k) = st).
    { destruct st; cbn in *. subst. f_equal; unfold ad_weight_sum, weight_sum;
        cbn; ring. }
    rewrite Hst, Htime. destruct (sample_None _ _ _ _ _ Hobt) as [Hend|Hnone].
    + rewrite !decide_False by done. eexists; split; [done|].
      by rewrite app_nil_r.
    + destruct (decide (instant k ≤ end_time)) as [Hle|Hle].
      * unfold cap_read; cbn. rewrite Hrel, Hvid, Hnone.
        eexists; split; [done|]. by cbn.
      * eexists; split; [done|]. by rewrite app_nil_r.
  - apply obtains_from_succ in Hobt as [[frame Hframe] Hobt].
    destruct (sample_Some _ _ _ _ _ _ Hframe) as [Hle Hread].
    rewrite Htime, decide_True by done.
    unfold cap_read; cbn [cap_released cap_set_pos_msec cap_video cap_pos_msec].
    rewrite Hrel, Hvid, Hread, truediv_weight by (apply Hdur; lia).
    edestruct (IH (S k) fuel) as (cap' & -> & Hseeks); [| | |exact Hobt| | |].
    3: { cbn. by rewrite sample_time_succ. }
    1,2: done.
    { lia. }
    { intros _. apply Hdur. lia. }
    exists cap'. cbn [total_weighted_value total_weight w_current_time].
    split.
    + assert (Hlab : label_at k = Some (classify_frame transform frame model))
        by (unfold sample_label; by rewrite Hframe).
      rewrite weight_sum_succ, ad_weight_sum_succ.
      replace (k + S m)%nat with (S k + m)%nat by lia.
      do 4 f_equal.
      * destruct (decide (classify_frame transform frame model = 0%Z)) as [Hl|Hl].
        -- rewrite decide_True by (by rewrite Hlab, Hl). ring.
        -- rewrite decide_False by (rewrite Hlab; intros [= ?]; done). ring.
      * ring.
    + rewrite Hseeks, seeks_from_succ. cbn [cap_seeks cap_set_pos_msec].
      by rewrite <- app_assoc.
Qed.

(** On a range without duration the first frame read makes the weight
    computation divide by zero. *)
Lemma process_video_segments_weigth_loop_zero_duration fuel cap st frame :
  cap_video cap = video → cap_released cap = false →
  w_current_time st = start_time → end_time = start_time →
  video (start_time * f1000) = Some frame →
  process_video_segments_weigth_loop transform (S fuel) cap model start_time
    end_time frame_interval (end_time - start_time) st =
  Some (Raised ZeroDivisionError).
Proof.
  intros Hvid Hrel Htime -> Hread. cbn [process_video_segments_weigth_loop].
  rewrite Htime, decide_True by done.
  unfold cap_read; cbn [cap_released cap_set_pos_msec cap_video cap_pos_msec].
  rewrite Hrel, Hvid, Hread. unfold truediv.
  rewrite decide_True; [done|]. ring.
Qed.

End WeightedLoop.

(** ** Unweighted scores *)

Section UnweightedScore.

Context {Frame Tensor : Type}.
Variable transform : Frame -> Tensor.
Variable video : @Video Frame.
Variable model : @Model Tensor.
Variables start_time end_time frame_interval : Qc.

(** The score the unweighted functions compute from [n] frames obtained,
    [a] of them labelled 0. *)
Lemma percentage_of_counts (n a : nat) :
  (if decide (0 < 0 + Z.of_nat n)%Z
   then q ← truediv (Qc_of_Z (0 + Z.of_nat a)) (Qc_of_Z (0 + Z.of_nat n));
        mret (q * f100)
   else mret 0) =
  Returned (if decide (n = O) then 0
            else f100 * Qc_of_Z (Z.of_nat a) / Qc_of_Z (Z.of_nat n)).
Proof.
  rewrite !Z.add_0_l. destruct n as [|n].
  - by rewrite decide_False, decide_True by done.
  - rewrite decide_True, (decide_False (P := S n = O)) by lia.
    assert (Hn : Qc_of_Z (Z.of_nat (S n)) ≠ 0).
    { rewrite <- Z2Qc_inj_0. intros H%Z2Qc_inj. lia. }
    unfold truediv. rewrite decide_False by done.
    cbn. f_equal. by field.
Qed.

Lemma process_video_segments_score n fuel :
  obtains video start_time end_time frame_interval n → (n < fuel)%nat →
  process_video_segments transform fuel video model start_time end_time
    frame_interval =
  Some (Returned
          (if decide (n = O) then 0
           else f100
                * Qc_of_Z (Z.of_nat (ad_count transform video model start_time
                                       end_time frame_interval 0 n))
                / Qc_of_Z (Z.of_nat n))).
Proof.
  intros Hobt Hfuel. unfold process_video_segments.
  destruct (process_video_segments_loop_spec transform video model start_time
              end_time frame_interval n O fuel (VideoCapture_open video)
              (mkCounters 0 0 0 start_time))
    as (cap' & -> & _); [done|done|by rewrite sample_time_0|done|done|].
  cbn [mbind option_bind total_frames ad_frames]. f_equal.
  apply percentage_of_counts.
Qed.

Lemma process_video_segments_after__eq fuel :
  process_video_segments_after_ transform fuel video model start_time end_time
    frame_interval =
  process_video_segments transform fuel video model start_time end_time
    frame_interval.
Proof.
  unfold process_video_segments_after_, process_video_segments.
  by rewrite process_video_segments_after__loop_eq.
Qed.

End UnweightedScore.

(** ** What the unweighted loop has read and counted *)

Lemma process_video_segments_loop_reads {Frame Tensor : Type}
    (transform : Frame -> Tensor) (model : @Model Tensor)
    (end_time frame_interval : Qc) (fuel : nat) :
  ∀ (cap cap' : @VideoCapture Frame) st st',
    cap_released cap = false →
    process_video_segments_loop transform fuel cap model end_time frame_interval st
    = Some (st', cap') →
    ∃ new,
      cap_seeks cap' = cap_seeks cap ++ new
      ∧ cap_video cap' = cap_video cap
      ∧ total_frames st'
        = (total_frames st + Z.of_nat (length (omap (cap_video cap) new)))%Z
      ∧ ad_frames st'
        = (ad_frames st
           + Z.of_nat (length (filter (fun frame =>
                                         classify_frame transform frame model = 0%Z)
                                 (omap (cap_video cap) new))))%Z
      ∧ frame_count st'
        = (frame_count st + Z.of_nat (length (omap (cap_video cap) new)))%Z
      ∧ ((end_time < current_time st'
          ∧ Forall (fun pos => is_Some (cap_video cap pos)) new)
         ∨ (current_time st' ≤ end_time
            ∧ ∃ seeks pos, new = seeks ++ [pos]
                ∧ Forall (fun pos => is_Some (cap_video cap pos)) seeks
                ∧ cap_video cap pos = None)).
Proof.
  induction fuel as [|fuel IH]; intros cap cap' st st' Hopen; [done|].
  cbn [process_video_segments_loop]. case_decide as Htime.
  2: { intros [= <- <-]. exists []. rewrite app_nil_r. cbn.
       repeat (split; [done || lia|]). left. split; [|done].
       by apply Qcnot_le_lt. }
  unfold cap_read. cbn [cap_set_pos_msec cap_released cap_video cap_pos_msec].
  rewrite Hopen.
  destruct (cap_video cap (current_time st * f1000)) as [frame|] eqn:Hframe.
  - intros Hrun. apply IH in Hrun as (new & Hseeks & Hvideo & Htotal & Had & Hcount & Hstop);
      [|done].
    cbn [cap_set_pos_msec cap_seeks cap_video total_frames ad_frames frame_count]
      in *.
    exists (current_time st * f1000 :: new).
    split; [by rewrite Hseeks, <- app_assoc|]. split; [done|].
    cbn [omap list_omap]. rewrite Hframe. fold (omap (cap_video cap) new).
    rewrite filter_cons. cbn [length].
    split; [lia|]. split; [case_decide; cbn [length]; lia|]. split; [lia|].
    destruct Hstop as [[Hgt Hall]|(Hle & seeks & pos & -> & Hall & Hnone)].
    + left. split; [done|]. by constructor.
    + right. split; [done|]. exists (current_time st * f1000 :: seeks), pos.
      split; [done|]. split; [by constructor|done].
  - intros [= <- <-]. exists [current_time st * f1000].
    cbn [cap_seeks cap_video omap list_omap]. rewrite Hframe. cbn.
    repeat (split; [done || lia|]). right. split; [done|].
    by exists [], (current_time st * f1000).
Qed.

(** A quotient rounded once and its product by 100 rounded once more lie
    [within_rounding] of the exact percentage. *)
Lemma division_then_multiplication_within_rounding (a n q score : Qc) :
  0 ≤ a → 0 < n →
  rounded (a / n) q → rounded (q * f100) score →
  within_rounding score (f100 * a / n).
Proof.
  intros Ha Hn [Hq1 Hq2] [Hs1 Hs2].
  assert (Hx : 0 ≤ a / n).
  { unfold Qcdiv. apply Qcmult_nonneg_nonneg; [done|].
    by apply Qclt_le_weak, Qcinv_pos. }
  replace (f100 * a / n) with (a / n * f100) by (unfold Qcdiv; ring).
  set (x := a / n) in *. clearbody x. clear Ha Hn a n.
  unfold within_rounding. unfold Qcle in *.
  rewrite ?Qc_this_mult, ?Qc_this_plus, ?Qc_this_minus in *.
  change (this 0) with 0%Q in *. change (this 1) with 1%Q in *.
  change (this f100) with 100%Q.
  change (this f100) with 100%Q in Hs1, Hs2.
  change (this unit_roundoff) with (1 # 9007199254740992)%Q in *.
  change (this rounding_error) with (1 # 2251799813685248)%Q.
  split; nra.
Qed.

(** A video that cannot be read (no position has a frame) scores 0.0 in
    both modes: the loop stops at its first read and the division by the
    number of frames, or by the weight sum, is not reached. *)
Lemma unreadable_video_scores_zero {Frame Tensor : Type}
    (transform : Frame -> Tensor) (video : @Video Frame) (model : @Model Tensor)
    (start_time end_time frame_interval : Qc) (fuel : nat) :
  (∀ pos, video pos = None) →
  process_video_segments transform (S fuel) video model start_time end_time
    frame_interval = Some (Returned 0)
  ∧ process_video_segments_weigth transform (S fuel) video model start_time end_time
      frame_interval = Some (Returned 0).
Proof.
  intros Hnone. split.
  - unfold process_video_segments. cbn [process_video_segments_loop current_time].
    case_decide; [|done]. unfold cap_read. cbn. by rewrite Hnone.
  - unfold process_video_segments_weigth.
    cbn [process_video_segments_weigth_loop w_current_time].
    case_decide; [|done]. unfold cap_read. cbn. by rewrite Hnone.
Qed.


(** On [demo_video], sampled every half second over its two seconds, two
    of the five frames are labelled 0: the unweighted score is 40; their
    weights are 0 and 1/4 out of a total of 5/2: the weighted score is 10. *)
Example process_video_segments_demo :
  process_video_segments demo_transform 6 demo_video demo_model 0 2 f0_5
  = Some (Returned (Qc_of_Z 40)).
Proof. by_evaluation. Qed.

Example process_video_segments_weigth_demo :
  process_video_segments_weigth demo_transform 6 demo_video demo_model 0 2 f0_5
  = Some (Returned (Qc_of_Z 10)).
Proof. by_evaluation. Qed.

(** C9: the two unweighted scoring functions agree on every video, model,
    range and sampling interval, whatever the number of loop iterations
    allowed: they return the same score, or neither returns. *)
Theorem unweighted_variants_agree {Frame Tensor : Type}
    (transform : Frame -> Tensor) (fuel : nat) (video_path : @Video Frame)
    (model : @Model Tensor) (start_time end_time frame_interval : Qc) :
  process_video_segments transform fuel video_path model start_time end_time
    frame_interval =
  process_video_segments_after_ transform fuel video_path model start_time
    end_time frame_interval.
Proof. symmetry. apply process_video_segments_after__eq. Qed.

(** ** Weighted scores *)

Section WeightedScore.

Context {Frame Tensor : Type}.
Variable transform : Frame -> Tensor.
Variables start_time end_time frame_interval : Qc.

Local Abbreviation instant := (sample_time start_time frame_interval).
Local Abbreviation weight_at := (weight start_time end_time).
Local Abbreviation weights_of := (weight_sum start_time end_time frame_interval).

Lemma process_video_segments_weigth_score (video : @Video Frame)
    (model : @Model Tensor) n fuel :
  obtains video start_time end_time frame_interval n → (n < fuel)%nat →
  ((0 < n)%nat → end_time ≠ start_time) →
  process_video_segments_weigth transform fuel video model start_time end_time
    frame_interval =
  Some (Returned
          (if decide (0 < weights_of 0 n)
           then ad_weight_sum transform video model start_time end_time
                  frame_interval 0 n / weights_of 0 n * f100
           else 0)).
Proof.
  intros Hobt Hfuel Hdur. unfold process_video_segments_weigth.
  destruct (process_video_segments_weigth_loop_spec transform video model
              start_time end_time frame_interval n O fuel
              (VideoCapture_open video) (mkWeights 0 0 start_time))
    as (cap' & -> & _); [done|done|by rewrite sample_time_0|done|done|done|].
  cbn [mbind option_bind result_bind total_weighted_value total_weight].
  rewrite !Qcplus_0_l. f_equal. case_decide as Hw; [|done].
  unfold truediv. rewrite decide_False; [done|].
  intros H0. rewrite H0 in Hw. by apply (Qclt_not_eq 0 0).
Qed.

Lemma weight_nonneg t : start_time < end_time → start_time ≤ t → 0 ≤ weight_at t.
Proof.
  intros Hlt Ht. unfold weight, Qcdiv.
  apply Qcmult_nonneg_nonneg.
  - by apply Qcle_minus_iff in Ht.
  - apply Qclt_le_weak, Qcinv_pos. by apply Qclt_minus_iff in Hlt.
Qed.

End WeightedScore.

(** C2: on a range of zero length whose first frame can be read, the
    weighted scoring function does not return 0.0: computing the weight of
    that frame divides by the zero duration and the call raises
    ZeroDivisionError. *)
Theorem weighted_score_zero_length_raises {Frame Tensor : Type}
    (transform : Frame -> Tensor) (fuel : nat) (video : @Video Frame)
    (model : @Model Tensor) (t frame_interval : Qc) (frame : Frame) :
  video (t * f1000) = Some frame →
  process_video_segments_weigth transform (S fuel) video model t t frame_interval
  = Some (Raised ZeroDivisionError).
Proof.
  intros Hread. unfold process_video_segments_weigth.
  by erewrite process_video_segments_weigth_loop_zero_duration.
Qed.

Lemma weighted_score_zero_length_raises_witness :
  still_video (1 * f1000) = Some 0%nat
  ∧ process_video_segments_weigth demo_transform 1 still_video demo_model 1 1 f0_5
    = Some (Raised ZeroDivisionError).
Proof.
  split; [reflexivity|].
  apply (weighted_score_zero_length_raises demo_transform 0 still_video demo_model
           1 f0_5 0%nat).
  reflexivity.
Defined.

(** When no frame is obtained the weighted score is 0.0, whatever the
    range. *)
Lemma weighted_score_no_sample {Frame Tensor : Type}
    (transform : Frame -> Tensor) (fuel : nat) (video : @Video Frame)
    (model : @Model Tensor) (start_time end_time frame_interval : Qc) :
  obtains video start_time end_time frame_interval 0 →
  process_video_segments_weigth transform (S fuel) video model start_time end_time
    frame_interval = Some (Returned 0).
Proof.
  intros Hobt.
  rewrite (process_video_segments_weigth_score transform _ _ _ video model O)
    by (done || lia).
  rewrite decide_False; [done|]. intros H. by apply Qclt_not_eq in H.
Qed.

(** Away from that case the sampling schedule is the same in both modes:
    with the [n] frames the range yields, the loops request exactly the
    positions of the instants [start + k * interval] for [k < n], then
    the position of instant [n] if it is still inside the range (the read
    that fails), and finish without an exception. *)
Lemma sampling_schedule {Frame Tensor : Type} (transform : Frame -> Tensor)
    (video : @Video Frame) (model : @Model Tensor)
    (start_time end_time frame_interval : Qc) (n fuel : nat) :
  obtains video start_time end_time frame_interval n → (n < fuel)%nat →
  (∃ st cap,
     process_video_segments_loop transform fuel (VideoCapture_open video) model
       end_time frame_interval (mkCounters 0 0 0 start_time) = Some (st, cap)
     ∧ total_frames st = Z.of_nat n
     ∧ cap_seeks cap = seeks_from start_time end_time frame_interval 0 n)
  ∧ (((0 < n)%nat → end_time ≠ start_time) →
     ∃ st cap,
       process_video_segments_weigth_loop transform fuel (VideoCapture_open video)
         model start_time end_time frame_interval (end_time - start_time)
         (mkWeights 0 0 start_time) = Some (Returned (st, cap))
       ∧ cap_seeks cap = seeks_from start_time end_time frame_interval 0 n).
Proof.
  intros Hobt Hfuel. split.
  - destruct (process_video_segments_loop_spec transform video model start_time
                end_time frame_interval n O fuel (VideoCapture_open video)
                (mkCounters 0 0 0 start_time))
      as (cap' & -> & Hseeks & _); [done|done|by rewrite sample_time_0|done|done|].
    eexists _, _. split; [done|]. split; [cbn; lia|done].
  - intros Hdur.
    destruct (process_video_segments_weigth_loop_spec transform video model
                start_time end_time frame_interval n O fuel
                (VideoCapture_open video) (mkWeights 0 0 start_time))
      as (cap' & -> & Hseeks); [done|done|by rewrite sample_time_0|done|done|done|].
    by eexists _, _.
Qed.

(** C5: at the default interval, on the range [1, 1] of a video that has
    a frame at every position, the unweighted function samples the one
    instant of the range and returns a score, while the weighted function
    reads the frame at that instant and raises ZeroDivisionError before
    classifying it. *)
Theorem weighted_sampling_zero_length_raises :
  process_video_segments demo_transform 2 still_video demo_model 1 1 f0_5
  = Some (Returned f100)
  ∧ process_video_segments_weigth demo_transform 2 still_video demo_model 1 1 f0_5
    = Some (Raised ZeroDivisionError).
Proof. split; by_evaluation. Qed.

(** C4, as stated, fails: on the range [0, 0.3] sampled every 0.5 s one
    frame is obtained, it is labelled Ad, and the weighted score is 0.0,
    not 100.0, because the frame taken at the start of the range has
    weight 0. *)
Lemma weighted_score_single_ad_frame_is_zero :
  obtains still_video 0 (Q2Qc (3 # 10)) f0_5 1
  ∧ sample_label demo_transform still_video demo_model 0 (Q2Qc (3 # 10)) f0_5 0
    = Some 0%Z
  ∧ process_video_segments_weigth demo_transform 2 still_video demo_model 0
      (Q2Qc (3 # 10)) f0_5 = Some (Returned 0)
  ∧ (0 : Qc) ≠ f100.
Proof.
  split; [split|split; [|split]].
  - intros j Hj. assert (j = O) as -> by lia. by_evaluation.
  - by_evaluation.
  - by_evaluation.
  - by_evaluation.
  - by_evaluation.
Qed.

(** ** What the weighted loop has read and accumulated *)

Section WeightedReads.

Context {Frame Tensor : Type}.
Variable transform : Frame -> Tensor.
Variables start_time end_time frame_interval segment_duration : Qc.

(** Where the loop leaves the accumulators, by the labels of the frames
    it read. *)
Lemma process_video_segments_weigth_loop_reads (model : @Model Tensor) (fuel : nat) :
  ∀ (cap cap' : @VideoCapture Frame) st st',
    cap_released cap = false →
    process_video_segments_weigth_loop transform fuel cap model start_time end_time
      frame_interval segment_duration st = Some (Returned (st', cap')) →
    ∃ new,
      cap_seeks cap' = cap_seeks cap ++ new
      ∧ cap_video cap' = cap_video cap
      ∧ (omap (cap_video cap) new = [] → st' = st)
      ∧ (Forall (fun frame => classify_frame transform frame model ≠ 0%Z)
           (omap (cap_video cap) new) →
         total_weighted_value st' = total_weighted_value st)
      ∧ (Forall (fun frame => classify_frame transform frame model = 0%Z)
           (omap (cap_video cap) new) →
         total_weighted_value st = total_weight st →
         total_weighted_value st' = total_weight st').
Proof.
  induction fuel as [|fuel IH]; intros cap cap' st st' Hopen; [done|].
  cbn [process_video_segments_weigth_loop]. case_decide as Htime.
  2: { intros [= <- <-]. exists []. by rewrite app_nil_r. }
  unfold cap_read. cbn [cap_set_pos_msec cap_released cap_video cap_pos_msec].
  rewrite Hopen.
  destruct (cap_video cap (w_current_time st * f1000)) as [frame|] eqn:Hframe.
  2: { intros [= <- <-]. exists [w_current_time st * f1000].
       cbn [cap_seeks cap_video omap list_omap]. by rewrite Hframe. }
  destruct (truediv _ _) as [weight|e]; [|done].
  intros Hrun. apply IH in Hrun as (new & Hseeks & Hvideo & _ & Hnone & Hall);
    [|done].
  cbn [cap_set_pos_msec cap_seeks cap_video total_weighted_value total_weight]
    in *.
  exists (w_current_time st * f1000 :: new).
  split; [by rewrite Hseeks, <- app_assoc|]. split; [done|].
  cbn [omap list_omap]. rewrite Hframe. fold (omap (cap_video cap) new).
  split; [done|]. split.
  - intros [Hlabel Hrest]%Forall_cons. rewrite Hnone by done.
    by rewrite decide_False.
  - intros [Hlabel Hrest]%Forall_cons Heq. apply Hall; [done|].
    rewrite decide_True by done. by rewrite Heq.
Qed.

(** A model that labels 0 the same frames takes the loop through the
    same steps. *)
Lemma process_video_segments_weigth_loop_labels (model1 model2 : @Model Tensor)
    (fuel : nat) :
  ∀ (cap cap' : @VideoCapture Frame) st st',
    cap_released cap = false →
    process_video_segments_weigth_loop transform fuel cap model1 start_time end_time
      frame_interval segment_duration st = Some (Returned (st', cap')) →
    ∃ new,
      cap_seeks cap' = cap_seeks cap ++ new
      ∧ (Forall (fun frame => classify_frame transform frame model1 = 0%Z
                              ↔ classify_frame transform frame model2 = 0%Z)
           (omap (cap_video cap) new) →
         process_video_segments_weigth_loop transform fuel cap model2 start_time
           end_time frame_interval segment_duration st
         = Some (Returned (st', cap'))).
Proof.
  induction fuel as [|fuel IH]; intros cap cap' st st' Hopen; [done|].
  cbn [process_video_segments_weigth_loop]. case_decide as Htime.
  2: { intros [= <- <-]. exists []. by rewrite app_nil_r. }
  unfold cap_read. cbn [cap_set_pos_msec cap_released cap_video cap_pos_msec].
  rewrite Hopen.
  destruct (cap_video cap (w_current_time st * f1000)) as [frame|] eqn:Hframe.
  2: { intros [= <- <-]. by exists [w_current_time st * f1000]. }
  destruct (truediv _ _) as [weight|e]; [|done].
  intros Hrun. apply IH in Hrun as (new & Hseeks & Hsame); [|done].
  cbn [cap_set_pos_msec cap_seeks cap_video] in *.
  exists (w_current_time st * f1000 :: new).
  split; [by rewrite Hseeks, <- app_assoc|].
  cbn [omap list_omap]. rewrite Hframe. fold (omap (cap_video cap) new).
  intros [Hlabel Hrest]%Forall_cons. rewrite <- (Hsame Hrest).
  destruct (decide (classify_frame transform frame model1 = 0%Z)) as [H1|H1].
  - by rewrite decide_True by by apply Hlabel.
  - rewrite decide_False; [done|]. intros H2. by apply H1, Hlabel.
Qed.

End WeightedReads.

(** The first pass of the weighted loop: the frame at the start of the
    range gets the weight [(start - start) / (end - start) = 0], so the
    accumulators stay at 0 whatever its label. *)
Lemma process_video_segments_weigth_loop_first {Frame Tensor : Type}
    (transform : Frame -> Tensor) (video : @Video Frame) (model : @Model Tensor)
    (start_time end_time frame_interval : Qc) (fuel : nat) :
  let cap := cap_set_pos_msec (VideoCapture_open video) (start_time * f1000) in
  process_video_segments_weigth_loop transform (S fuel) (VideoCapture_open video)
    model start_time end_time frame_interval (end_time - start_time)
    (mkWeights 0 0 start_time)
  = if decide (start_time ≤ end_time) then
      match video (start_time * f1000) with
      | None => Some (Returned (mkWeights 0 0 start_time, cap))
      | Some _ =>
          if decide (end_time = start_time) then Some (Raised ZeroDivisionError)
          else process_video_segments_weigth_loop transform fuel cap model
                 start_time end_time frame_interval (end_time - start_time)
                 (mkWeights 0 0 (start_time + frame_interval))
      end
    else Some (Returned (mkWeights 0 0 start_time, VideoCapture_open video)).
Proof.
  intros cap. cbn [process_video_segments_weigth_loop w_current_time].
  case_decide; [|done]. unfold cap_read. cbn.
  destruct (video (start_time * f1000)) as [frame|]; [|done].
  destruct (decide (end_time = start_time)) as [Hend|Hend].
  - subst end_time. unfold truediv. rewrite decide_True; [done|ring].
  - rewrite truediv_weight by done. cbn [total_weighted_value total_weight].
    replace (weight start_time end_time start_time) with (0 : Qc)
      by (unfold weight, Qcdiv; ring).
    rewrite Qcplus_0_l. by case_decide.
Qed.

(** The score returned after the loop. *)
Lemma process_video_segments_weigth_of_loop {Frame Tensor : Type}
    (transform : Frame -> Tensor) (video : @Video Frame) (model : @Model Tensor)
    (start_time end_time frame_interval : Qc) (fuel : nat) (st : weights)
    (cap : @VideoCapture Frame) :
  process_video_segments_weigth_loop transform fuel (VideoCapture_open video) model
    start_time end_time frame_interval (end_time - start_time)
    (mkWeights 0 0 start_time) = Some (Returned (st, cap)) →
  process_video_segments_weigth transform fuel video model start_time end_time
    frame_interval
  = Some (Returned (if decide (0 < total_weight st)
                    then total_weighted_value st / total_weight st * f100
                    else 0)).
Proof.
  intros Hloop. unfold process_video_segments_weigth. rewrite Hloop.
  cbn [mbind option_bind result_bind]. case_decide as Hpos; [|done].
  unfold truediv. rewrite decide_False; [done|].
  intros H0. rewrite H0 in Hpos. by apply Qclt_not_eq in Hpos.
Qed.

(** C4, amended: when the weighted loop finishes, then if every frame it
    read is labelled Ad and the weights it summed are positive, the
    weighted score is exactly 100.0; if no frame it read is labelled Ad,
    the score is exactly 0.0; and if it read one frame or none (the one
    frame is the frame at the start of the range, of weight 0), the
    score is 0.0 whatever the label. *)
Theorem weighted_score_uniform_labels {Frame Tensor : Type}
    (transform : Frame -> Tensor) (video : @Video Frame) (model : @Model Tensor)
    (start_time end_time frame_interval : Qc) (fuel : nat) (st : weights)
    (cap : @VideoCapture Frame) :
  process_video_segments_weigth_loop transform fuel (VideoCapture_open video) model
    start_time end_time frame_interval (end_time - start_time)
    (mkWeights 0 0 start_time) = Some (Returned (st, cap)) →
  (Forall (fun frame => classify_frame transform frame model = 0%Z)
     (frames_read cap) →
   0 < total_weight st →
   process_video_segments_weigth transform fuel video model start_time end_time
     frame_interval = Some (Returned f100))
  ∧ (Forall (fun frame => classify_frame transform frame model ≠ 0%Z)
       (frames_read cap) →
     process_video_segments_weigth transform fuel video model start_time end_time
       frame_interval = Some (Returned 0))
  ∧ ((length (frames_read cap) ≤ 1)%nat →
     process_video_segments_weigth transform fuel video model start_time end_time
       frame_interval = Some (Returned 0)).
Proof.
  intros Hloop.
  rewrite (process_video_segments_weigth_of_loop _ _ _ _ _ _ _ _ _ Hloop).
  destruct (process_video_segments_weigth_loop_reads transform start_time end_time
              frame_interval (end_time - start_time) model fuel
              (VideoCapture_open video) cap _ st eq_refl Hloop)
    as (new & Hseeks & Hvideo & _ & Hnone & Hall).
  cbn [VideoCapture_open cap_seeks cap_video total_weighted_value total_weight app]
    in Hseeks, Hvideo, Hnone, Hall.
  assert (Hframes : frames_read cap = omap video new).
  { unfold frames_read. by rewrite Hvideo, Hseeks. }
  rewrite Hframes. split; [|split].
  - intros Hads Hpos. rewrite decide_True by done. rewrite Hall by done.
    replace (total_weight st / total_weight st * f100) with f100; [done|].
    field. intros H0. rewrite H0 in Hpos. by apply Qclt_not_eq in Hpos.
  - intros Hads. rewrite Hnone by done. case_decide; [|done].
    by replace (0 / total_weight st * f100) with (0 : Qc) by (unfold Qcdiv; ring).
  - intros Hlen. destruct fuel as [|fuel]; [done|].
    rewrite process_video_segments_weigth_loop_first in Hloop.
    case_decide; [|by injection Hloop as <- _].
    destruct (video (start_time * f1000)) as [frame|] eqn:Hframe;
      [|by injection Hloop as <- _].
    case_decide; [done|].
    destruct (process_video_segments_weigth_loop_reads transform start_time
                end_time frame_interval (end_time - start_time) model fuel
                (cap_set_pos_msec (VideoCapture_open video) (start_time * f1000))
                cap _ st eq_refl Hloop) as (rest & Hseeks' & _ & Hstay & _).
    cbn [cap_set_pos_msec VideoCapture_open cap_seeks cap_video app] in Hseeks', Hstay.
    rewrite <- Hseeks, Hseeks' in Hlen.
    cbn [omap list_omap] in Hlen. rewrite Hframe in Hlen.
    fold (omap video rest) in Hlen. cbn [length] in Hlen.
    rewrite Hstay by (apply length_zero_iff_nil; lia). done.
Qed.

Lemma weighted_score_uniform_labels_witness :
  ∃ st cap,
    process_video_segments_weigth_loop demo_transform 6 (VideoCapture_open still_video)
      demo_model 0 2 f0_5 (2 - 0) (mkWeights 0 0 0) = Some (Returned (st, cap))
    ∧ length (frames_read cap) = 5%nat
    ∧ Forall (fun frame => classify_frame demo_transform frame demo_model = 0%Z)
        (frames_read cap)
    ∧ 0 < total_weight st
    ∧ process_video_segments_weigth demo_transform 6 still_video demo_model 0 2 f0_5
      = Some (Returned f100).
Proof.
  eexists _, _. split; [by vm_compute|]. split; [by vm_compute|].
  assert (Hads : Forall (fun frame => classify_frame demo_transform frame demo_model
                                      = 0%Z) (replicate 5 0%nat))
    by (by repeat constructor).
  split; [exact Hads|]. split; [by vm_compute|].
  eapply (proj1 (weighted_score_uniform_labels demo_transform still_video demo_model
                   0 2 f0_5 6 _ _ ltac:(by vm_compute))).
  - exact Hads.
  - by vm_compute.
Defined.

(** C10: on a range with [end > start] the frame read at [range.start]
    has weight 0, and its label does not reach the score: when the
    weighted loop finishes for one model, a second model that labels
    every frame read after the first as the first model does (and the
    first frame in any way) gets the same score. *)
Theorem weighted_score_ignores_first_label {Frame Tensor : Type}
    (transform : Frame -> Tensor) (video : @Video Frame)
    (model1 model2 : @Model Tensor) (start_time end_time frame_interval : Qc)
    (fuel : nat) (st : weights) (cap : @VideoCapture Frame) :
  start_time < end_time →
  process_video_segments_weigth_loop transform fuel (VideoCapture_open video) model1
    start_time end_time frame_interval (end_time - start_time)
    (mkWeights 0 0 start_time) = Some (Returned (st, cap)) →
  Forall (fun frame => classify_frame transform frame model1
                       = classify_frame transform frame model2)
    (tail (frames_read cap)) →
  weight start_time end_time start_time = 0
  ∧ ∃ score,
      process_video_segments_weigth transform fuel video model1 start_time end_time
        frame_interval = Some (Returned score)
      ∧ process_video_segments_weigth transform fuel video model2 start_time
          end_time frame_interval = Some (Returned score).
Proof.
  intros Hlt Hloop Hlabels.
  split; [unfold weight, Qcdiv; ring|].
  eexists. split.
  { exact (process_video_segments_weigth_of_loop _ _ _ _ _ _ _ _ _ Hloop). }
  apply (process_video_segments_weigth_of_loop _ _ _ _ _ _ _ st cap).
  destruct fuel as [|fuel]; [done|].
  rewrite process_video_segments_weigth_loop_first in Hloop |- *.
  case_decide; [|done].
  destruct (video (start_time * f1000)) as [frame|] eqn:Hframe; [|done].
  case_decide; [done|].
  destruct (process_video_segments_weigth_loop_labels transform start_time end_time
              frame_interval (end_time - start_time) model1 model2 fuel
              (cap_set_pos_msec (VideoCapture_open video) (start_time * f1000))
              cap _ st eq_refl Hloop) as (rest & Hseeks & Hsame).
  cbn [cap_set_pos_msec VideoCapture_open cap_seeks cap_video app] in Hseeks, Hsame.
  apply Hsame.
  destruct (process_video_segments_weigth_loop_reads transform start_time end_time
              frame_interval (end_time - start_time) model1 fuel
              (cap_set_pos_msec (VideoCapture_open video) (start_time * f1000))
              cap _ st eq_refl Hloop) as (rest' & Hseeks' & Hvideo & _).
  cbn [cap_set_pos_msec VideoCapture_open cap_seeks cap_video app] in Hseeks', Hvideo.
  unfold frames_read in Hlabels. rewrite Hvideo, Hseeks in Hlabels.
  cbn [omap list_omap] in Hlabels. rewrite Hframe in Hlabels.
  fold (omap video rest) in Hlabels. cbn [tail] in Hlabels.
  eapply Forall_impl; [exact Hlabels|]. intros frame' Heq. cbn. by rewrite Heq.
Qed.

Lemma weighted_score_ignores_first_label_witness :
  ∃ st cap,
    (0 : Qc) < 2
    ∧ process_video_segments_weigth_loop demo_transform 6
        (VideoCapture_open first_frame_video) demo_model 0 2 f0_5 (2 - 0)
        (mkWeights 0 0 0) = Some (Returned (st, cap))
    ∧ frames_read cap = [0; 1; 1; 1; 1]%nat
    ∧ classify_frame demo_transform 0%nat demo_model = 0%Z
    ∧ classify_frame demo_transform 0%nat content_model = 1%Z
    ∧ weight 0 2 0 = 0
    ∧ ∃ score,
        process_video_segments_weigth demo_transform 6 first_frame_video demo_model
          0 2 f0_5 = Some (Returned score)
        ∧ process_video_segments_weigth demo_transform 6 first_frame_video
            content_model 0 2 f0_5 = Some (Returned score).
Proof.
  eexists _, _. split; [reflexivity|]. split; [by vm_compute|].
  split; [by vm_compute|]. split; [by vm_compute|]. split; [by vm_compute|].
  eapply (weighted_score_ignores_first_label demo_transform first_frame_video
            demo_model content_model 0 2 f0_5 6 _ _ eq_refl).
  - by vm_compute.
  - by repeat constructor.
Defined.


(** ** classify_frame *)






(** ** The decision pass *)

Section DecisionPass.

Variable running : nat -> bool.
Hypothesis never_stopped : ∀ n, running n = true.
Variables base_thresh boost : Qc.
Variable scores : list Qc.

Lemma prev_ad_spec i :
  (i < length scores)%nat →
  (if bool_decide (0 < Z.of_nat i)%Z
   then s ← getitem scores (i - 1); mret (bool_decide (base_thresh ≤ s))
   else mret false) =
  Returned (bool_decide ((0 < i)%nat ∧ strong base_thresh scores (i - 1))).
Proof.
  intros Hi. case_bool_decide as H0.
  - destruct (lookup_lt_is_Some_2 scores (i - 1)) as [x Hx]; [lia|].
    unfold getitem. rewrite Hx. cbn. f_equal. apply bool_decide_ext.
    unfold strong. rewrite Hx. split.
    + intros Hle. split; [lia|]. by exists x.
    + by intros (_ & y & [= <-] & Hle).
  - cbn. f_equal. symmetry. apply bool_decide_eq_false. intros [? _]. lia.
Qed.

Lemma next_ad_spec i :
  (if bool_decide (Z.of_nat i < Z.of_nat (length scores) - 1)%Z
   then s ← getitem scores (i + 1); mret (bool_decide (base_thresh ≤ s))
   else mret false) =
  Returned (bool_decide ((i + 1 < length scores)%nat
                         ∧ strong base_thresh scores (i + 1))).
Proof.
  case_bool_decide as H0.
  - destruct (lookup_lt_is_Some_2 scores (i + 1)) as [x Hx]; [lia|].
    unfold getitem. rewrite Hx. cbn. f_equal. apply bool_decide_ext.
    unfold strong. rewrite Hx. split.
    + intros Hle. split; [lia|]. by exists x.
    + by intros (_ & y & [= <-] & Hle).
  - cbn. f_equal. symmetry. apply bool_decide_eq_false. intros [? _]. lia.
Qed.

Lemma _is_advertisement_spec i score :
  scores !! i = Some score →
  _is_advertisement score base_thresh boost
    (negb (bool_decide ((0 < i)%nat ∧ strong base_thresh scores (i - 1)))
     && negb (bool_decide ((i + 1 < length scores)%nat
                           ∧ strong base_thresh scores (i + 1))))
  = bool_decide (classified_ad base_thresh boost scores i).
Proof.
  intros Hi. unfold _is_advertisement, classified_ad, effective_threshold.
  rewrite <- !bool_decide_not, <- bool_decide_and.
  apply bool_decide_ext. rewrite Hi.
  change (¬ ((0 < i)%nat ∧ strong base_thresh scores (i - 1))
          ∧ ¬ ((i + 1 < length scores)%nat ∧ strong base_thresh scores (i + 1)))
    with (isolated base_thresh scores i).
  destruct (decide (isolated base_thresh scores i)) as [Hiso|Hiso].
  - rewrite bool_decide_eq_true_2 by done. split.
    + intros Hle. by exists score.
    + by intros (y & [= <-] & Hle).
  - rewrite bool_decide_eq_false_2 by done. split.
    + intros Hle. by exists score.
    + by intros (y & [= <-] & Hle).
Qed.

(** The loop over [enumerate(scores)], entered at index [i]. *)
Lemma _analyze_video_decide_spec (scenes : list Scene) :
  length scenes = length scores →
  ∀ rest i tick preds_final,
    rest = drop i scores →
    _analyze_video_decide running tick scenes scores base_thresh boost i rest
      preds_final =
    Returned (preds_final
              ++ ad_subsequence base_thresh boost scores i (drop i scenes)).
Proof.
  intros Hlen rest. induction rest as [|score rest IH];
    intros i tick preds_final Hrest; cbn [_analyze_video_decide].
  - assert (length scores ≤ i)%nat as Hi.
    { apply (f_equal length) in Hrest. rewrite length_drop in Hrest.
      cbn in Hrest. lia. }
    rewrite drop_ge by lia. cbn. by rewrite app_nil_r.
  - assert (Hscore : scores !! i = Some score).
    { rewrite <- (Nat.add_0_r i), <- lookup_drop, <- Hrest. done. }
    assert (Hi : (i < length scores)%nat) by by eapply lookup_lt_Some.
    destruct (lookup_lt_is_Some_2 scenes i) as [scene Hscene]; [lia|].
    rewrite never_stopped. cbn [negb].
    rewrite prev_ad_spec, next_ad_spec by done.
    cbn [mbind result_bind].
    rewrite (_is_advertisement_spec i score) by done.
    rewrite (drop_S _ _ _ Hscene). cbn [ad_subsequence].
    case_bool_decide as Had.
    + unfold getitem. rewrite Hscene. cbn [mbind result_bind mret result_ret].
      rewrite IH.
      * rewrite decide_True by done. by rewrite <- app_assoc.
      * apply (f_equal (drop 1)) in Hrest. rewrite drop_drop in Hrest.
        rewrite Nat.add_1_r in Hrest. done.
    + cbn [mbind result_bind mret result_ret]. rewrite IH.
      * by rewrite decide_False by done.
      * apply (f_equal (drop 1)) in Hrest. rewrite drop_drop in Hrest.
        rewrite Nat.add_1_r in Hrest. done.
Qed.

End DecisionPass.

(** When the worker is stopped during the pass the loop breaks at the
    first poll that finds the flag cleared: the scenes decided so far, a
    prefix of the scene list, have been judged by the same rule. *)
Lemma _analyze_video_decide_stopped (running : nat -> bool)
    (base_thresh boost : Qc) (scores : list Qc) (scenes : list Scene) :
  length scenes = length scores →
  ∀ rest i tick preds_final,
    rest = drop i scores →
    ∃ m, (m ≤ length rest)%nat
         ∧ (∀ j, (j < m)%nat → running (tick + j)%nat = true)
         ∧ ((m < length rest)%nat → running (tick + m)%nat = false)
         ∧ _analyze_video_decide running tick scenes scores base_thresh boost i
             rest preds_final =
           Returned (preds_final
                     ++ ad_subsequence base_thresh boost scores i
                          (take m (drop i scenes))).
Proof.
  intros Hlen rest. induction rest as [|score rest IH];
    intros i tick preds_final Hrest; cbn [_analyze_video_decide].
  - exists O. split; [done|]. split; [lia|]. split; [cbn; lia|].
    cbn. by rewrite app_nil_r.
  - destruct (running tick) eqn:Hrun; cbn [negb].
    2: { exists O. split; [cbn; lia|]. split; [lia|].
         split; [by rewrite Nat.add_0_r|]. cbn. by rewrite app_nil_r. }
    assert (Hscore : scores !! i = Some score).
    { rewrite <- (Nat.add_0_r i), <- lookup_drop, <- Hrest. done. }
    assert (Hi : (i < length scores)%nat) by by eapply lookup_lt_Some.
    destruct (lookup_lt_is_Some_2 scenes i) as [scene Hscene]; [lia|].
    assert (Hrest' : rest = drop (S i) scores).
    { apply (f_equal (drop 1)) in Hrest. rewrite drop_drop in Hrest.
      by rewrite Nat.add_1_r in Hrest. }
    rewrite prev_ad_spec, next_ad_spec by done.
    cbn [mbind result_bind].
    rewrite (_is_advertisement_spec base_thresh boost scores i score) by done.
    rewrite (drop_S _ _ _ Hscene).
    assert (Hpolls : ∀ m,
      (∀ j, (j < m)%nat → running (S tick + j)%nat = true) →
      ∀ j, (j < S m)%nat → running (tick + j)%nat = true).
    { intros m Hm [|j] Hj; [by rewrite Nat.add_0_r|].
      replace (tick + S j)%nat with (S tick + j)%nat by lia. apply Hm. lia. }
    case_bool_decide as Had.
    + unfold getitem. rewrite Hscene. cbn [mbind result_bind mret result_ret].
      destruct (IH (S i) (S tick) (preds_final ++ [scene]) Hrest')
        as (m & Hm & Htrue & Hfalse & ->).
      exists (S m). split; [cbn; lia|]. split; [by apply Hpolls|]. split.
      * intros Hlt. replace (tick + S m)%nat with (S tick + m)%nat by lia.
        apply Hfalse. cbn in Hlt. lia.
      * cbn [take ad_subsequence]. rewrite decide_True by done.
        by rewrite <- app_assoc.
    + cbn [mbind result_bind mret result_ret].
      destruct (IH (S i) (S tick) preds_final Hrest')
        as (m & Hm & Htrue & Hfalse & ->).
      exists (S m). split; [cbn; lia|]. split; [by apply Hpolls|]. split.
      * intros Hlt. replace (tick + S m)%nat with (S tick + m)%nat by lia.
        apply Hfalse. cbn in Hlt. lia.
      * cbn [take ad_subsequence]. by rewrite decide_False by done.
Qed.

(** C1: for scores aligned one to one with the scene list, and a worker
    that is not stopped during the pass, the decision loop with base
    threshold 12.5 and boost 10 returns, in one pass and in scene order,
    exactly the scenes whose score reaches their effective threshold:
    the base threshold for an isolated scene (neither neighbour reaches
    the base threshold), the base threshold minus the boost otherwise. *)
Theorem decision_pass_is_hysteresis_rule (running : nat -> bool) (tick : nat)
    (scenes : list Scene) (scores : list Qc) :
  length scenes = length scores →
  (∀ n, running n = true) →
  _analyze_video_decide running tick scenes scores f12_5 f10 0 scores []
  = Returned (ad_subsequence f12_5 f10 scores 0 scenes).
Proof.
  intros Hlen Hrun.
  by rewrite (_analyze_video_decide_spec running Hrun f12_5 f10 scores scenes Hlen
                scores 0 tick []).
Qed.

Lemma decision_pass_is_hysteresis_rule_witness :
  let scenes : list Scene := [(0, 1); (1, 2); (2, Qc_of_Z 3)] in
  let scores : list Qc := [Qc_of_Z 50; 0; 0] in
  length scenes = length scores
  ∧ (∀ n, (fun _ : nat => true) n = true)
  ∧ _analyze_video_decide (fun _ => true) 0 scenes scores f12_5 f10 0 scores []
    = Returned (ad_subsequence f12_5 f10 scores 0 scenes).
Proof.
  intros scenes scores. split; [reflexivity|]. split; [done|].
  apply (decision_pass_is_hysteresis_rule (fun _ => true) 0 scenes scores);
    [reflexivity|done].
Defined.

(** The worked examples of the decision rule: a strong scene pulls in
    its weaker neighbours, and an isolated weak scene stays out. *)
Example decision_rule_20_13_5 :
  ad_subsequence f12_5 f10 [Qc_of_Z 20; Qc_of_Z 13; Qc_of_Z 5] 0
    [(0, 1); (1, 2); (2, Qc_of_Z 3)]
  = [(0, 1); (1, 2); (2, Qc_of_Z 3)].
Proof. by_evaluation. Qed.

Example decision_rule_3_20_3 :
  ad_subsequence f12_5 f10 [Qc_of_Z 3; Qc_of_Z 20; Qc_of_Z 3] 0
    [(0, 1); (1, 2); (2, Qc_of_Z 3)]
  = [(0, 1); (1, 2); (2, Qc_of_Z 3)].
Proof. by_evaluation. Qed.

Example decision_rule_50_0_0 :
  ad_subsequence f12_5 f10 [Qc_of_Z 50; 0; 0] 0 [(0, 1); (1, 2); (2, Qc_of_Z 3)]
  = [(0, 1)].
Proof. by_evaluation. Qed.

(** ** The scoring pass and the score map *)

Section ScoringPass.

Context {Frame Tensor : Type}.
Variable transform : Frame -> Tensor.
Variable running : nat -> bool.
Hypothesis never_stopped : ∀ n, running n = true.
Variable video : @Video Frame.
Variable model : @Model Tensor.

Local Abbreviation score_of := (scene_score transform video model).
Local Abbreviation scored := (scene_scored transform video model).
Local Abbreviation future_of := (scene_future transform video model).
Local Abbreviation merge_of := (merged transform video model).

Lemma scene_scored_eventually (scene : Scene) :
  ∃ fuel0, ∀ fuel, (fuel0 < fuel)%nat → scored fuel scene.
Proof.
  destruct (sampling_stops video scene.1 scene.2 f0_5 eq_refl) as [n Hn].
  exists n. intros fuel Hfuel. unfold scene_scored, scene_score.
  rewrite process_video_segments_after__eq.
  by rewrite (process_video_segments_score transform video model _ _ _ n fuel).
Qed.

Lemma scenes_scored_eventually (scenes : list Scene) :
  ∃ fuel0, ∀ fuel, (fuel0 < fuel)%nat → Forall (scored fuel) scenes.
Proof.
  induction scenes as [|scene scenes [fuel1 IH]].
  - by exists O.
  - destruct (scene_scored_eventually scene) as [fuel2 Hscene].
    exists (fuel1 `max` fuel2)%nat. intros fuel Hfuel. constructor.
    + apply Hscene. lia.
    + apply IH. lia.
Qed.

Lemma single_scene_task fuel (scene : Scene) :
  scored fuel scene →
  detect_ad_scenes_from_segments_and_get_all_results transform fuel video [scene]
    model = Some (Returned {[ scene := score_of fuel scene ]}).
Proof.
  unfold scene_scored. destruct scene as [start_time end_time]. cbn [fst snd].
  intros Hscore. unfold detect_ad_scenes_from_segments_and_get_all_results.
  cbn [detect_ad_scenes_from_segments_and_get_all_results_loop].
  rewrite Hscore. by rewrite insert_empty.
Qed.

(** The function on a whole scene list: one entry per scene of the
    list, keyed by the scene, holding its score. *)
Lemma detect_ad_scenes_from_segments_and_get_all_results_loop_spec (fuel : nat)
    (scenes : list Scene) :
  Forall (scored fuel) scenes →
  ∀ result_dict, ∃ result_dict',
    detect_ad_scenes_from_segments_and_get_all_results_loop transform fuel video
      scenes model result_dict = Some (Returned result_dict')
    ∧ ∀ scene, result_dict' !! scene =
               if decide (scene ∈ scenes) then Some (score_of fuel scene)
               else result_dict !! scene.
Proof.
  induction 1 as [|[start_time end_time] scenes Hscene _ IH]; intros result_dict;
    cbn [detect_ad_scenes_from_segments_and_get_all_results_loop].
  - exists result_dict. split; [done|]. intros scene.
    rewrite decide_False; [done|]. apply not_elem_of_nil.
  - unfold scene_scored in Hscene. cbn [fst snd] in Hscene. rewrite Hscene.
    destruct (IH (<[(start_time, end_time) :=
                    score_of fuel (start_time, end_time)]> result_dict))
      as (result_dict' & -> & Hlook).
    exists result_dict'. split; [done|]. intros scene. rewrite Hlook.
    destruct (decide (scene ∈ scenes)) as [Hin|Hin].
    + rewrite decide_True; [done|]. by right.
    + destruct (decide (scene = (start_time, end_time))) as [->|Hne].
      * rewrite decide_True by (by left). by rewrite lookup_insert_eq.
      * rewrite decide_False by (intros [?|?]%elem_of_cons; done).
        by rewrite lookup_insert_ne.
Qed.

Lemma _analyze_video_submit_spec fuel (scenes : list Scene) :
  Forall (scored fuel) scenes →
  ∀ tick futures,
    _analyze_video_submit transform running fuel video model tick scenes futures
    = (futures ++ map (future_of fuel) scenes, (tick + length scenes)%nat).
Proof.
  induction 1 as [|scene scenes Hscene _ IH]; intros tick futures;
    cbn [_analyze_video_submit].
  - by rewrite app_nil_r, Nat.add_0_r.
  - rewrite never_stopped. cbn [negb]. rewrite single_scene_task, IH by done.
    cbn [map length]. rewrite <- app_assoc. f_equal. lia.
Qed.

Lemma _analyze_video_collect_spec fuel (scenes : list Scene) :
  ∀ tick preds,
    _analyze_video_collect running tick (map (future_of fuel) scenes) preds
    = Some (Returned (merge_of fuel scenes preds, (tick + length scenes)%nat)).
Proof.
  induction scenes as [|scene scenes IH]; intros tick preds;
    cbn [_analyze_video_collect map].
  - by rewrite Nat.add_0_r.
  - rewrite never_stopped. cbn [negb scene_future]. rewrite IH.
    cbn [length]. do 3 f_equal. lia.
Qed.

Lemma merged_lookup fuel (scenes : list Scene) :
  ∀ preds scene,
    merge_of fuel scenes preds !! scene =
    if decide (scene ∈ scenes) then Some (score_of fuel scene)
    else preds !! scene.
Proof.
  induction scenes as [|scene' scenes IH]; intros preds scene; cbn [merged foldl].
  - rewrite decide_False; [done|]. apply not_elem_of_nil.
  - fold (merge_of fuel scenes ({[scene' := score_of fuel scene']} ∪ preds)).
    rewrite IH. destruct (decide (scene ∈ scenes)) as [Hin|Hin].
    + rewrite decide_True; [done|]. by right.
    + destruct (decide (scene = scene')) as [->|Hne].
      * rewrite decide_True by (by left).
        by rewrite lookup_union_l', lookup_singleton_eq
          by (by rewrite lookup_singleton_eq).
      * rewrite decide_False by (intros [?|?]%elem_of_cons; done).
        by rewrite lookup_union_r by (by rewrite lookup_singleton_ne).
Qed.

Lemma merged_dom fuel (scenes : list Scene) :
  dom (merge_of fuel scenes ∅) = list_to_set scenes.
Proof.
  apply set_eq. intros scene.
  rewrite elem_of_dom, merged_lookup, elem_of_list_to_set.
  case_decide; [by split|]. rewrite lookup_empty. split; [by intros [? ?]|done].
Qed.

Lemma _analyze_video_scores_spec (fuel : nat) (preds : gmap Scene Qc) (scenes : list Scene) :
  (∀ scene, scene ∈ scenes → preds !! scene = Some (score_of fuel scene)) →
  _analyze_video_scores preds scenes = Returned (map (score_of fuel) scenes).
Proof.
  induction scenes as [|[start_time end_time] scenes IH]; intros Hall; [done|].
  cbn [_analyze_video_scores map]. unfold dict_getitem.
  rewrite Hall by (by left). cbn [mbind result_bind].
  rewrite IH; [done|]. intros scene Hin. apply Hall. by right.
Qed.

Lemma _analyze_video_score_spec fuel tick (scenes : list Scene) :
  Forall (scored fuel) scenes →
  _analyze_video_score transform running fuel video model tick scenes
  = Some (Returned (merge_of fuel scenes ∅,
                    (tick + length scenes + length scenes)%nat)).
Proof.
  intros Hall. unfold _analyze_video_score.
  rewrite _analyze_video_submit_spec by done. cbn [app].
  rewrite _analyze_video_collect_spec. cbn [mbind option_bind].
  rewrite (proj2 (forallb_forall _ _)); [done|].
  intros future (scene & <- & _)%in_map_iff. by apply bool_decide_eq_true_2.
Qed.

End ScoringPass.

(** C6: for pairwise distinct scene ranges and a worker that is not
    stopped, the scoring pass returns a score map whose keys are exactly
    the scene ranges, one entry each, and the list of scores read back
    from it has one score per scene, in scene order: the score
    [process_video_segments_after_] returns for that scene. *)
Theorem score_map_has_one_entry_per_scene {Frame Tensor : Type}
    (transform : Frame -> Tensor) (running : nat -> bool) (video : @Video Frame)
    (model : @Model Tensor) (tick : nat) (scenes : list Scene) :
  NoDup scenes →
  (∀ n, running n = true) →
  ∃ fuel0, ∀ fuel, (fuel0 < fuel)%nat →
    ∃ (preds : gmap Scene Qc) (tick' : nat) (scores : list Qc),
      _analyze_video_score transform running fuel video model tick scenes
      = Some (Returned (preds, tick'))
      ∧ dom preds = list_to_set scenes
      ∧ size preds = length scenes
      ∧ _analyze_video_scores preds scenes = Returned scores
      ∧ length scores = length scenes
      ∧ ∀ i scene, scenes !! i = Some scene →
          ∃ score, scores !! i = Some score
                   ∧ preds !! scene = Some score
                   ∧ process_video_segments_after_ transform fuel video model
                       scene.1 scene.2 f0_5 = Some (Returned score).
Proof.
  intros Hnodup Hrun.
  destruct (scenes_scored_eventually transform video model scenes) as [fuel0 Hfuel0].
  exists fuel0. intros fuel Hfuel. specialize (Hfuel0 fuel Hfuel).
  eexists (merged transform video model fuel scenes ∅), _,
    (map (scene_score transform video model fuel) scenes).
  split; [by apply _analyze_video_score_spec|].
  split; [apply merged_dom|].
  split; [by rewrite <- size_dom, merged_dom, size_list_to_set|].
  split.
  { apply _analyze_video_scores_spec. intros scene Hin.
    by rewrite merged_lookup, decide_True. }
  split; [by rewrite length_map|].
  intros i scene Hi. exists (scene_score transform video model fuel scene).
  split.
  { change (map ?f ?l) with (f <$> l). rewrite list_lookup_fmap.
    unfold Scene in *. by rewrite Hi. }
  split.
  - rewrite merged_lookup, decide_True; [done|]. by eapply list_elem_of_lookup_2.
  - eapply Forall_forall in Hfuel0; [exact Hfuel0|]. by eapply list_elem_of_lookup_2.
Qed.

Lemma score_map_has_one_entry_per_scene_witness :
  let scenes : list Scene := [(0, 1); (1, 2)] in
  NoDup scenes
  ∧ (∀ n, (fun _ : nat => true) n = true)
  ∧ ∃ fuel0, ∀ fuel, (fuel0 < fuel)%nat →
      ∃ (preds : gmap Scene Qc) (tick' : nat) (scores : list Qc),
        _analyze_video_score demo_transform (fun _ => true) fuel demo_video
          demo_model 0 scenes = Some (Returned (preds, tick'))
        ∧ dom preds = list_to_set scenes
        ∧ size preds = length scenes
        ∧ _analyze_video_scores preds scenes = Returned scores
        ∧ length scores = length scenes
        ∧ ∀ i scene, scenes !! i = Some scene →
            ∃ score, scores !! i = Some score
                     ∧ preds !! scene = Some score
                     ∧ process_video_segments_after_ demo_transform fuel demo_video
                         demo_model scene.1 scene.2 f0_5 = Some (Returned score).
Proof.
  intros scenes.
  assert (Hnodup : NoDup scenes) by by_evaluation.
  split; [exact Hnodup|]. split; [done|].
  apply (score_map_has_one_entry_per_scene demo_transform (fun _ => true)
           demo_video demo_model 0 scenes Hnodup).
  done.
Defined.

(** The whole analysis, for a worker that is not stopped: the ad ranges
    are those the decision rule selects from the scores of the scenes. *)
Lemma _analyze_video_spec {Frame Tensor : Type} (transform : Frame -> Tensor)
    (running : nat -> bool) (video : @Video Frame) (model : @Model Tensor)
    (fuel : nat) (scenes : list Scene) :
  (∀ n, running n = true) →
  Forall (scene_scored transform video model fuel) scenes →
  _analyze_video transform running fuel video model scenes
  = Some (Returned (ad_subsequence f12_5 f10
                      (map (scene_score transform video model fuel) scenes) 0
                      scenes)).
Proof.
  intros Hrun Hall. unfold _analyze_video.
  case_bool_decide as Hnil; [by subst|].
  rewrite _analyze_video_score_spec by done. cbn [mbind option_bind result_bind].
  rewrite bool_decide_eq_false_2.
  2: { destruct scenes as [|scene scenes]; [done|]. intros Hempty.
       pose proof (merged_lookup transform video model fuel (scene :: scenes) ∅ scene)
         as Hlook.
       rewrite Hempty, lookup_empty, decide_True in Hlook; [done|by left]. }
  rewrite (_analyze_video_scores_spec transform video model fuel).
  2: { intros scene Hin. by rewrite merged_lookup, decide_True. }
  cbn [mbind result_bind]. f_equal.
  rewrite (_analyze_video_decide_spec running Hrun f12_5 f10 _ scenes);
    [done|by rewrite length_map|done].
Qed.

(** The analysis of the first two seconds of [demo_video], cut in two
    scenes: frames 0, 0, 1 score 66.7 for the first scene, frames
    1, 1, 1 score 0 for the second, and only the first scene is an ad. *)
Example _analyze_video_demo :
  _analyze_video demo_transform (fun _ => true) 4 demo_video demo_model
    [(0, 1); (1, 2)]
  = Some (Returned [(0, 1)]).
Proof. by_evaluation. Qed.

(** ** load_model *)

Section LoadModel.

Context {FS Net StateDict : Type}.
Variable path_exists : FS -> string -> bool.
Variable dirname : string -> string.
Variable extractall : FS -> string -> string -> FS.
Variable create_model : Net.
Variable torch_load : FS -> string -> option StateDict.
Variable load_state_dict : Net -> StateDict -> option Net.
Variable to_device_eval : Net -> Net.

(** For the one registered name the call returns: a model, or [None]
    when the weights cannot be loaded. *)
Lemma load_model_registered_returns (st : loader_state) :
  ∃ model st',
    load_model path_exists dirname extractall create_model torch_load
      load_state_dict to_device_eval st "Swin" = (Returned model, st').
Proof.
  unfold load_model. destruct (PRELOADED_MODELS st !! "Swin"); [by eexists _, _|].
  change (AVAILABLE_MODELS !! "Swin")
    with (Some "../models/ad_classifier_swin.pth").
  cbn [method_replace]. rewrite bool_decide_eq_true_2 by done.
  destruct (_ ≫= _); by eexists _, _.
Qed.

End LoadModel.

(** C8: for a name that is neither cached nor in [AVAILABLE_MODELS],
    [load_model] does not return a failure value: [model_path] is [None],
    the call of [replace] on it raises AttributeError, and the branch that
    reports the unknown name and returns [None] is never reached. *)
Theorem load_model_unregistered_name_raises {FS Net StateDict : Type}
    (path_exists : FS -> string -> bool) (dirname : string -> string)
    (extractall : FS -> string -> string -> FS) (create_model : Net)
    (torch_load : FS -> string -> option StateDict)
    (load_state_dict : Net -> StateDict -> option Net)
    (to_device_eval : Net -> Net) (st : @loader_state FS Net)
    (model_name : string) :
  PRELOADED_MODELS st !! model_name = None →
  AVAILABLE_MODELS !! model_name = None →
  load_model path_exists dirname extractall create_model torch_load
    load_state_dict to_device_eval st model_name = (Raised AttributeError, st).
Proof. intros Hcache Hname. unfold load_model. by rewrite Hcache, Hname. Qed.

Lemma load_model_unregistered_name_raises_witness :
  let st : @loader_state unit nat := mkLoader tt ∅ in
  PRELOADED_MODELS st !! "ResNet" = None
  ∧ AVAILABLE_MODELS !! "ResNet" = None
  ∧ load_model (fun _ _ => false) (fun path => path) (fun fs _ _ => fs) 0%nat
      (fun _ _ => Some tt) (fun net _ => Some net) (fun net => net) st "ResNet"
    = (Raised AttributeError, st).
Proof.
  intros st. split; [reflexivity|]. split; [reflexivity|].
  apply (load_model_unregistered_name_raises (fun _ _ => false) (fun path => path)
           (fun fs _ _ => fs) 0%nat (fun _ _ => Some tt) (fun net _ => Some net)
           (fun net => net) st "ResNet"); reflexivity.
Defined.

(** * Further properties of the code *)

(** ** Scores are percentages *)

Lemma percentage_bounds (a n : Z) :
  (0 ≤ a ≤ n)%Z → (0 < n)%Z →
  0 ≤ Qc_of_Z a / Qc_of_Z n * f100 ∧ Qc_of_Z a / Qc_of_Z n * f100 ≤ f100.
Proof.
  intros Ha Hn.
  assert (Hn' : 0 < Qc_of_Z n).
  { rewrite <- Z2Qc_inj_0. by apply (proj1 (Z2Qc_inj_lt _ _)). }
  assert (Ha' : 0 ≤ Qc_of_Z a).
  { rewrite <- Z2Qc_inj_0. apply (proj1 (Z2Qc_inj_le _ _)). lia. }
  assert (Han : Qc_of_Z a ≤ Qc_of_Z n) by (apply (proj1 (Z2Qc_inj_le _ _)); lia).
  assert (H100 : 0 ≤ f100) by done.
  assert (Hinv : 0 ≤ / Qc_of_Z n) by by apply Qclt_le_weak, Qcinv_pos.
  assert (Hfrac : Qc_of_Z a / Qc_of_Z n ≤ 1).
  { unfold Qcdiv. rewrite <- (Qcmult_inv_r (Qc_of_Z n)).
    - by apply Qcmult_le_compat_r.
    - intros H0. rewrite H0 in Hn'. by apply Qclt_not_eq in Hn'. }
  split.
  - apply Qcmult_nonneg_nonneg; [|done]. by apply Qcmult_nonneg_nonneg.
  - rewrite <- (Qcmult_1_l f100) at 2. by apply Qcmult_le_compat_r.
Qed.

(** The counters of the unweighted loop: the Ad frames are among the
    frames read. *)
Lemma process_video_segments_loop_counters {Frame Tensor : Type}
    (transform : Frame -> Tensor) (model : @Model Tensor)
    (end_time frame_interval : Qc) (fuel : nat) :
  ∀ (cap cap' : @VideoCapture Frame) st st',
    (0 ≤ ad_frames st ≤ total_frames st)%Z →
    process_video_segments_loop transform fuel cap model end_time frame_interval st
    = Some (st', cap') →
    (0 ≤ ad_frames st' ≤ total_frames st')%Z.
Proof.
  induction fuel as [|fuel IH]; intros cap cap' st st' Hinv; [done|].
  cbn [process_video_segments_loop]. case_decide; [|by intros [= <- <-]].
  destruct (cap_read _); [|by intros [= <- <-]].
  apply IH. cbn. case_decide; lia.
Qed.

Lemma process_video_segments_bounds {Frame Tensor : Type}
    (transform : Frame -> Tensor) (video : @Video Frame) (model : @Model Tensor)
    (start_time end_time frame_interval : Qc) (fuel : nat) (r : result Qc) :
  process_video_segments transform fuel video model start_time end_time
    frame_interval = Some r →
  ∃ score, r = Returned score ∧ 0 ≤ score ∧ score ≤ f100.
Proof.
  unfold process_video_segments.
  destruct (process_video_segments_loop _ _ _ _ _ _ _) as [[st cap]|] eqn:Hloop;
    [|done].
  apply process_video_segments_loop_counters in Hloop; [|cbn; lia].
  cbn [mbind option_bind]. intros [= <-]. case_decide as Hpos.
  - unfold truediv. rewrite decide_False.
    + cbn. eexists. split; [done|]. by apply percentage_bounds.
    + rewrite <- Z2Qc_inj_0. intros H0%Z2Qc_inj. lia.
  - by exists 0.
Qed.

(** X1: a score returned by [process_video_segments] or by
    [process_video_segments_after_] is a percentage: it lies between 0
    and 100, whatever the range and the interval (also a zero or negative
    one). *)
Theorem unweighted_score_is_percentage {Frame Tensor : Type}
    (transform : Frame -> Tensor) (video : @Video Frame) (model : @Model Tensor)
    (start_time end_time frame_interval : Qc) (fuel : nat) (score : Qc) :
  process_video_segments transform fuel video model start_time end_time
    frame_interval = Some (Returned score)
  ∨ process_video_segments_after_ transform fuel video model start_time end_time
      frame_interval = Some (Returned score) →
  0 ≤ score ∧ score ≤ f100.
Proof.
  intros [Hrun|Hrun].
  - by apply process_video_segments_bounds in Hrun as (? & [= <-] & ?).
  - rewrite process_video_segments_after__eq in Hrun.
    by apply process_video_segments_bounds in Hrun as (? & [= <-] & ?).
Qed.

Lemma unweighted_score_is_percentage_witness :
  process_video_segments demo_transform 6 demo_video demo_model 0 2 f0_5
  = Some (Returned (Qc_of_Z 40))
  ∧ 0 ≤ Qc_of_Z 40 ∧ Qc_of_Z 40 ≤ f100.
Proof.
  assert (Hrun : process_video_segments demo_transform 6 demo_video demo_model
                   0 2 f0_5 = Some (Returned (Qc_of_Z 40))) by by_evaluation.
  split; [exact Hrun|].
  exact (unweighted_score_is_percentage demo_transform demo_video demo_model 0 2
           f0_5 6 (Qc_of_Z 40) (or_introl Hrun)).
Defined.

Lemma Qc_percentage_bounds (a b : Qc) :
  0 ≤ a → a ≤ b → 0 < b → 0 ≤ a / b * f100 ∧ a / b * f100 ≤ f100.
Proof.
  intros Ha Hab Hb.
  assert (H100 : 0 ≤ f100) by done.
  assert (Hinv : 0 ≤ / b) by by apply Qclt_le_weak, Qcinv_pos.
  assert (Hfrac : a / b ≤ 1).
  { unfold Qcdiv. rewrite <- (Qcmult_inv_r b).
    - by apply Qcmult_le_compat_r.
    - intros H0. rewrite H0 in Hb. by apply Qclt_not_eq in Hb. }
  split.
  - apply Qcmult_nonneg_nonneg; [|done]. by apply Qcmult_nonneg_nonneg.
  - rewrite <- (Qcmult_1_l f100) at 2. by apply Qcmult_le_compat_r.
Qed.

(** The accumulators of the weighted loop on a range with a duration,
    stepped forward in time: instants do not precede the start, so the
    weights are not negative, and the Ad weight is part of the total. *)
Lemma process_video_segments_weigth_loop_accumulators {Frame Tensor : Type}
    (transform : Frame -> Tensor) (model : @Model Tensor)
    (start_time end_time frame_interval : Qc) (fuel : nat) :
  start_time < end_time → 0 ≤ frame_interval →
  ∀ (cap : @VideoCapture Frame) st r,
    start_time ≤ w_current_time st →
    0 ≤ total_weighted_value st → total_weighted_value st ≤ total_weight st →
    process_video_segments_weigth_loop transform fuel cap model start_time end_time
      frame_interval (end_time - start_time) st = Some r →
    ∃ st' cap', r = Returned (st', cap')
                ∧ 0 ≤ total_weighted_value st'
                ∧ total_weighted_value st' ≤ total_weight st'.
Proof.
  intros Hlt Hstep.
  assert (Hne : end_time ≠ start_time).
  { intros ->. by apply Qclt_not_eq in Hlt. }
  induction fuel as [|fuel IH]; intros cap st r Htime Htv Htw; [done|].
  cbn [process_video_segments_weigth_loop].
  case_decide; [|intros [= <-]; by eexists _, _].
  destruct (cap_read _); [|intros [= <-]; by eexists _, _].
  rewrite truediv_weight by done.
  pose proof (weight_nonneg start_time end_time (w_current_time st) Hlt Htime) as Hw.
  apply IH; cbn [w_current_time total_weighted_value total_weight].
  - rewrite <- (Qcplus_0_r start_time). by apply Qcplus_le_compat.
  - case_decide; [by apply Qcplus_nonneg_nonneg|done].
  - case_decide.
    + by apply Qcplus_le_mono_r.
    + rewrite <- (Qcplus_0_r (total_weighted_value st)). by apply Qcplus_le_compat.
Qed.

Lemma process_video_segments_weigth_bounds {Frame Tensor : Type}
    (transform : Frame -> Tensor) (video : @Video Frame) (model : @Model Tensor)
    (start_time end_time frame_interval : Qc) (fuel : nat) (r : result Qc) :
  start_time < end_time → 0 ≤ frame_interval →
  process_video_segments_weigth transform fuel video model start_time end_time
    frame_interval = Some r →
  ∃ score, r = Returned score ∧ 0 ≤ score ∧ score ≤ f100.
Proof.
  intros Hlt Hstep. unfold process_video_segments_weigth.
  destruct (process_video_segments_weigth_loop _ _ _ _ _ _ _ _ _) as [r'|] eqn:Hloop;
    [|done].
  apply process_video_segments_weigth_loop_accumulators in Hloop
    as (st & cap & -> & Htv & Htw); [|done..].
  cbn [mbind option_bind result_bind]. intros [= <-]. case_decide as Hpos.
  - unfold truediv. rewrite decide_False.
    + cbn. eexists. split; [done|]. by apply Qc_percentage_bounds.
    + intros H0. rewrite H0 in Hpos. by apply Qclt_not_eq in Hpos.
  - by exists 0.
Qed.

(** Stepped backward in time on a range with a duration, the weighted
    loop meets no instant after the start: no weight is positive, and
    neither is their sum. *)
Lemma process_video_segments_weigth_loop_backward {Frame Tensor : Type}
    (transform : Frame -> Tensor) (model : @Model Tensor)
    (start_time end_time frame_interval : Qc) (fuel : nat) :
  start_time < end_time → frame_interval ≤ 0 →
  ∀ (cap cap' : @VideoCapture Frame) st st',
    w_current_time st ≤ start_time → total_weight st ≤ 0 →
    process_video_segments_weigth_loop transform fuel cap model start_time end_time
      frame_interval (end_time - start_time) st = Some (Returned (st', cap')) →
    total_weight st' ≤ 0.
Proof.
  intros Hlt Hstep.
  assert (Hne : end_time ≠ start_time).
  { intros ->. by apply Qclt_not_eq in Hlt. }
  induction fuel as [|fuel IH]; intros cap cap' st st' Htime Htw; [done|].
  cbn [process_video_segments_weigth_loop].
  case_decide; [|by intros [= <- <-]].
  destruct (cap_read _); [|by intros [= <- <-]].
  rewrite truediv_weight by done.
  assert (Hw : weight start_time end_time (w_current_time st) ≤ 0).
  { unfold weight, Qcdiv.
    rewrite <- (Qcmult_0_l (/ (end_time - start_time))).
    apply Qcmult_le_compat_r.
    - by apply Qcle_minus_iff in Htime; rewrite Qcle_minus_iff;
        replace (0 + - (w_current_time st - start_time))
          with (start_time + - w_current_time st) by ring.
    - apply Qclt_le_weak, Qcinv_pos. by apply Qclt_minus_iff in Hlt. }
  apply IH; cbn [w_current_time total_weight].
  - rewrite <- (Qcplus_0_r start_time). by apply Qcplus_le_compat.
  - rewrite <- (Qcplus_0_r 0). by apply Qcplus_le_compat.
Qed.

(** X2: a score returned by [process_video_segments_weigth] is a
    percentage: it lies between 0 and 100, whatever the range and the
    interval (also a range without a duration and an interval that is
    zero or negative). *)
Theorem weighted_score_is_percentage {Frame Tensor : Type}
    (transform : Frame -> Tensor) (video : @Video Frame) (model : @Model Tensor)
    (start_time end_time frame_interval : Qc) (fuel : nat) (score : Qc) :
  process_video_segments_weigth transform fuel video model start_time end_time
    frame_interval = Some (Returned score) →
  0 ≤ score ∧ score ≤ f100.
Proof.
  intros Hrun.
  destruct (decide (start_time < end_time)) as [Hlt|Hge].
  { destruct (decide (0 ≤ frame_interval)) as [Hstep|Hstep].
    - by apply process_video_segments_weigth_bounds in Hrun as (? & [= <-] & ?).
    - apply Qcnot_le_lt, Qclt_le_weak in Hstep. revert Hrun.
      unfold process_video_segments_weigth.
      destruct (process_video_segments_weigth_loop _ _ _ _ _ _ _ _ _)
        as [[[st cap]|e]|] eqn:Hloop; [|done..].
      apply process_video_segments_weigth_loop_backward in Hloop; [|done..].
      cbn [mbind option_bind result_bind].
      rewrite decide_False by by apply Qcle_not_lt.
      by intros [= <-]. }
  apply Qcnot_lt_le in Hge. revert Hrun.
  destruct fuel as [|fuel]; [done|].
  unfold process_video_segments_weigth.
  rewrite process_video_segments_weigth_loop_first.
  assert (Hzero : ∀ cap : @VideoCapture Frame,
            Some ('(st, cap) ← Returned (mkWeights 0 0 start_time, cap);
                  let cap := cap_release cap in
                  if decide (0 < total_weight st)
                  then q ← truediv (total_weighted_value st) (total_weight st);
                       mret (q * f100)
                  else mret 0) = Some (Returned score) →
            0 ≤ score ∧ score ≤ f100).
  { intros cap. cbn. by intros [= <-]. }
  case_decide as Hle; [|apply Hzero].
  destruct (video (start_time * f1000)); [|apply Hzero].
  rewrite decide_True; [done|]. by apply Qcle_antisym.
Qed.

Lemma weighted_score_is_percentage_witness :
  process_video_segments_weigth demo_transform 6 demo_video demo_model 0 2 f0_5
  = Some (Returned (Qc_of_Z 10))
  ∧ 0 ≤ Qc_of_Z 10 ∧ Qc_of_Z 10 ≤ f100.
Proof.
  assert (Hrun : process_video_segments_weigth demo_transform 6 demo_video
                   demo_model 0 2 f0_5 = Some (Returned (Qc_of_Z 10)))
    by by_evaluation.
  split; [exact Hrun|].
  exact (weighted_score_is_percentage demo_transform demo_video demo_model 0 2
           f0_5 6 (Qc_of_Z 10) Hrun).
Defined.

(** ** Seeks and reads *)

(** X3: when the scoring loop finishes it has asked the capture for one
    position per frame it read and for at most one more: it stopped
    either with its time past the end of the range, after as many seeks
    as frames, or at a position without a frame, the last one it asked
    for.  A range that ends before it starts is not sampled at all and
    scores 0.0. *)
Theorem loop_seeks_once_per_frame_read {Frame Tensor : Type}
    (transform : Frame -> Tensor) (video : @Video Frame) (model : @Model Tensor)
    (start_time end_time frame_interval : Qc) (fuel : nat) (st : counters)
    (cap : @VideoCapture Frame) :
  process_video_segments_loop transform fuel (VideoCapture_open video) model
    end_time frame_interval (mkCounters 0 0 0 start_time) = Some (st, cap) →
  let n := length (frames_read cap) in
  ((end_time < current_time st ∧ length (cap_seeks cap) = n)
   ∨ (current_time st ≤ end_time ∧ length (cap_seeks cap) = S n
      ∧ ∃ pos, last (cap_seeks cap) = Some pos ∧ video pos = None))
  ∧ (end_time < start_time →
     cap_seeks cap = []
     ∧ process_video_segments transform fuel video model start_time end_time
         frame_interval = Some (Returned 0)).
Proof.
  intros Hloop n. split.
  - destruct (process_video_segments_loop_reads transform model end_time
                frame_interval fuel (VideoCapture_open video) cap _ st eq_refl Hloop)
      as (new & Hseeks & Hvideo & _ & _ & _ & Hstop).
    cbn [VideoCapture_open cap_seeks cap_video app] in Hseeks, Hvideo, Hstop.
    assert (Hall : ∀ seeks, Forall (fun pos => is_Some (video pos)) seeks →
                            length (omap video seeks) = length seeks).
    { induction 1 as [|pos seeks [frame Hframe] _ IH]; [done|].
      cbn [omap list_omap]. rewrite Hframe. cbn [length]. by f_equal. }
    unfold n, frames_read. rewrite Hvideo, Hseeks.
    destruct Hstop as [[Hgt Hsome]|(Hle & seeks & pos & -> & Hsome & Hnone)].
    + left. split; [done|]. by rewrite Hall.
    + right. split; [done|]. split.
      * rewrite omap_app, !length_app. cbn [omap list_omap]. rewrite Hnone.
        cbn [length]. rewrite Hall by done. lia.
      * exists pos. by rewrite last_snoc.
  - intros Hlt. destruct fuel as [|fuel]; [done|].
    unfold process_video_segments. revert Hloop.
    cbn [process_video_segments_loop current_time].
    rewrite decide_False by by apply Qclt_not_le.
    by intros [= <- <-].
Qed.

Lemma loop_seeks_once_per_frame_read_witness :
  ∃ st cap,
    process_video_segments_loop demo_transform 6 (VideoCapture_open demo_video)
      demo_model 2 f0_5 (mkCounters 0 0 0 0) = Some (st, cap)
    ∧ length (frames_read cap) = 5%nat
    ∧ ((2 < current_time st ∧ length (cap_seeks cap) = length (frames_read cap))
       ∨ (current_time st ≤ 2
          ∧ length (cap_seeks cap) = S (length (frames_read cap))
          ∧ ∃ pos, last (cap_seeks cap) = Some pos ∧ demo_video pos = None)).
Proof.
  eexists _, _. split; [by vm_compute|]. split; [by vm_compute|].
  eapply (proj1 (loop_seeks_once_per_frame_read demo_transform demo_video demo_model
                   0 2 f0_5 6 _ _ _)).
  Unshelve. by vm_compute.
Defined.

(** ** The sequential detectors *)

Section DetectorsSpec.

Context {Frame Tensor : Type}.
Variable transform : Frame -> Tensor.
Variable video : @Video Frame.
Variable model : @Model Tensor.

Local Abbreviation score_of := (scene_score transform video model).
Local Abbreviation scored := (scene_scored transform video model).

Lemma scene_score_bounds (fuel : nat) (scene : Scene) :
  scored fuel scene → 0 ≤ score_of fuel scene ∧ score_of fuel scene ≤ f100.
Proof.
  unfold scene_scored. rewrite process_video_segments_after__eq. intros Hrun.
  apply process_video_segments_bounds in Hrun as (score & [= <-] & Hbounds).
  done.
Qed.

Lemma detect_ad_scenes_from_segments_loop_spec (fuel : nat) (name : string)
    (threshold : Qc) (scenes : list Scene) :
  Forall (scored fuel) scenes →
  ∀ res stdout,
    detect_ad_scenes_from_segments_loop transform fuel video model name threshold
      scenes res stdout =
    Some (Returned (res ++ filter (fun scene => threshold < score_of fuel scene)
                             scenes),
          stdout ++ map (fun scene : Scene =>
                           ScoreLine name scene.1 scene.2 (score_of fuel scene))
                      scenes).
Proof.
  induction 1 as [|[start_time end_time] scenes Hscene _ IH]; intros res stdout;
    cbn [detect_ad_scenes_from_segments_loop].
  - by rewrite filter_nil, !app_nil_r.
  - pose proof Hscene as Hrun. unfold scene_scored in Hrun. cbn [fst snd] in Hrun.
    rewrite Hrun, IH, filter_cons. cbn [map fst snd].
    case_decide; by rewrite <- ?app_assoc.
Qed.

End DetectorsSpec.

(** X4: once the iteration bound suffices, [detect_ad_scenes_from_segments]
    prints the header and one line per scene, in order, and returns the
    scenes whose unweighted score is strictly above the threshold, in
    scene order: none of them when the threshold is 100 or more, all of
    them when it is negative. *)
Theorem detect_ad_scenes_from_segments_filters {Frame Tensor : Type}
    (transform : Frame -> Tensor) (video : @Video Frame) (model : @Model Tensor)
    (scenes : list Scene) (name : string) (threshold : Qc)
    (stdout : list output_line) :
  ∃ fuel0, ∀ fuel, (fuel0 < fuel)%nat →
    let score := scene_score transform video model fuel in
    let res := filter (fun scene => threshold < score scene) scenes in
    detect_ad_scenes_from_segments transform fuel video scenes model name threshold
      stdout
    = Some (Returned res,
            stdout ++ AnalyzeBy name
              :: map (fun scene : Scene =>
                        ScoreLine name scene.1 scene.2 (score scene)) scenes)
    ∧ (f100 ≤ threshold → res = [])
    ∧ (threshold < 0 → res = scenes).
Proof.
  destruct (scenes_scored_eventually transform video model scenes) as [fuel0 Hfuel0].
  exists fuel0. intros fuel Hfuel score res. specialize (Hfuel0 fuel Hfuel).
  split; [|split].
  - unfold detect_ad_scenes_from_segments.
    rewrite (detect_ad_scenes_from_segments_loop_spec transform video model fuel)
      by done.
    by rewrite <- app_assoc.
  - intros Hthr. subst res. induction Hfuel0 as [|scene scenes Hscene _ IH];
      [done|].
    rewrite filter_cons, decide_False; [done|].
    apply scene_score_bounds in Hscene as [_ Hle].
    apply Qcle_not_lt. by eapply Qcle_trans.
  - intros Hthr. subst res. induction Hfuel0 as [|scene scenes Hscene _ IH];
      [done|].
    rewrite filter_cons, decide_True; [by rewrite IH|].
    apply scene_score_bounds in Hscene as [Hge _].
    by eapply Qclt_le_trans.
Qed.

(** X5: once the iteration bound suffices,
    [detect_ad_scenes_from_segments_and_get_all_results] returns, for any
    scene list, a dict whose keys are exactly the scenes of the list and
    that maps each to its unweighted score; scenes that occur more than
    once share one entry, so the dict has at most as many entries as the
    list, and exactly as many when the scenes are pairwise distinct. *)
Theorem get_all_results_maps_each_scene {Frame Tensor : Type}
    (transform : Frame -> Tensor) (video : @Video Frame) (model : @Model Tensor)
    (scenes : list Scene) :
  ∃ fuel0, ∀ fuel, (fuel0 < fuel)%nat →
    ∃ result_dict : gmap Scene Qc,
      detect_ad_scenes_from_segments_and_get_all_results transform fuel video scenes
        model = Some (Returned result_dict)
      ∧ dom result_dict = list_to_set scenes
      ∧ (∀ scene, scene ∈ scenes →
           result_dict !! scene = Some (scene_score transform video model fuel scene)
           ∧ process_video_segments_after_ transform fuel video model scene.1
               scene.2 f0_5
             = Some (Returned (scene_score transform video model fuel scene)))
      ∧ (size result_dict ≤ length scenes)%nat
      ∧ (NoDup scenes → size result_dict = length scenes).
Proof.
  destruct (scenes_scored_eventually transform video model scenes) as [fuel0 Hfuel0].
  exists fuel0. intros fuel Hfuel. specialize (Hfuel0 fuel Hfuel).
  destruct (detect_ad_scenes_from_segments_and_get_all_results_loop_spec transform
              video model fuel scenes Hfuel0 ∅) as (result_dict & Hrun & Hlook).
  exists result_dict. split; [exact Hrun|].
  assert (Hdom : dom result_dict = list_to_set scenes).
  { apply set_eq. intros scene.
    rewrite elem_of_dom, Hlook, elem_of_list_to_set.
    case_decide; [by split|]. rewrite lookup_empty. split; [by intros [? ?]|done]. }
  split; [exact Hdom|]. split; [|split].
  - intros scene Hin. split; [by rewrite Hlook, decide_True|].
    by eapply Forall_forall in Hfuel0.
  - rewrite <- size_dom, Hdom. clear.
    induction scenes as [|scene scenes IH]; [done|].
    cbn [list_to_set length]. rewrite size_union_alt, size_singleton.
    assert (Hsize : (size (list_to_set scenes ∖ {[scene]} : gset Scene)
                     ≤ size (list_to_set scenes : gset Scene))%nat).
    { apply subseteq_size, subseteq_difference_l. done. }
    lia.
  - intros Hnodup. by rewrite <- size_dom, Hdom, size_list_to_set.
Qed.

Lemma get_all_results_maps_each_scene_witness :
  let scenes : list Scene := [(0, 1); (1, 2); (0, 1)] in
  ∃ fuel0, ∀ fuel, (fuel0 < fuel)%nat →
    ∃ result_dict : gmap Scene Qc,
      detect_ad_scenes_from_segments_and_get_all_results demo_transform fuel
        demo_video scenes demo_model = Some (Returned result_dict)
      ∧ dom result_dict = list_to_set scenes
      ∧ (∀ scene, scene ∈ scenes →
           result_dict !! scene
           = Some (scene_score demo_transform demo_video demo_model fuel scene)
           ∧ process_video_segments_after_ demo_transform fuel demo_video demo_model
               scene.1 scene.2 f0_5
             = Some (Returned (scene_score demo_transform demo_video demo_model
                                 fuel scene)))
      ∧ (size result_dict ≤ length scenes)%nat
      ∧ (NoDup scenes → size result_dict = length scenes).
Proof.
  exact (get_all_results_maps_each_scene demo_transform demo_video demo_model
           [(0, 1); (1, 2); (0, 1)]).
Defined.

Section LogsSpec.

Context {Frame Tensor : Type}.
Variable transform : Frame -> Tensor.
Variable video : @Video Frame.
Variable model : @Model Tensor.

Local Abbreviation wscore_of fuel := (scene_weighted_score transform fuel video model).

Local Abbreviation weighted_scored fuel :=
  (scene_weighted_scored transform fuel video model).

Lemma weighted_scored_eventually (scene : Scene) :
  scene.1 < scene.2 →
  ∃ fuel0, ∀ fuel, (fuel0 < fuel)%nat → weighted_scored fuel scene.
Proof.
  intros Hlt.
  destruct (sampling_stops video scene.1 scene.2 f0_5 eq_refl) as [n Hn].
  exists n. intros fuel Hfuel. unfold scene_weighted_scored, scene_weighted_score.
  rewrite (process_video_segments_weigth_score transform _ _ _ video model n);
    [done..|].
  intros _ Heq. rewrite Heq in Hlt. by apply Qclt_not_eq in Hlt.
Qed.

Lemma scenes_weighted_scored_eventually (scenes : list Scene) :
  Forall (fun scene : Scene => scene.1 < scene.2) scenes →
  ∃ fuel0, ∀ fuel, (fuel0 < fuel)%nat → Forall (weighted_scored fuel) scenes.
Proof.
  induction 1 as [|scene scenes Hscene _ [fuel1 IH]].
  - by exists O.
  - destruct (weighted_scored_eventually scene Hscene) as [fuel2 Hfuel2].
    exists (fuel1 `max` fuel2)%nat. intros fuel Hfuel. constructor.
    + apply Hfuel2. lia.
    + apply IH. lia.
Qed.

Lemma to_logs_loop_spec (fuel : nat) (name : string) (scenes : list Scene) :
  Forall (weighted_scored fuel) scenes →
  ∀ log_file result_dict, ∃ result_dict',
    detect_ad_scenes_from_segments_and_get_all_results_to_logs_loop transform fuel
      video scenes model name log_file result_dict
    = Some (Returned result_dict',
            log_file ++ map (fun scene : Scene =>
                               ScoreLine name scene.1 scene.2 (wscore_of fuel scene))
                          scenes)
    ∧ ∀ scene, result_dict' !! scene =
               if decide (scene ∈ scenes) then Some (wscore_of fuel scene)
               else result_dict !! scene.
Proof.
  induction 1 as [|[start_time end_time] scenes Hscene _ IH];
    intros log_file result_dict;
    cbn [detect_ad_scenes_from_segments_and_get_all_results_to_logs_loop].
  - exists result_dict. split; [by rewrite app_nil_r|]. intros scene.
    rewrite decide_False; [done|]. apply not_elem_of_nil.
  - unfold scene_weighted_scored in Hscene. cbn [fst snd] in Hscene. rewrite Hscene.
    destruct (IH (log_file ++ [ScoreLine name start_time end_time
                                 (wscore_of fuel (start_time, end_time))])
                 (<[(start_time, end_time) :=
                    wscore_of fuel (start_time, end_time)]> result_dict))
      as (result_dict' & -> & Hlook).
    exists result_dict'. split; [by rewrite <- app_assoc|].
    intros scene. rewrite Hlook.
    destruct (decide (scene ∈ scenes)) as [Hin|Hin].
    + rewrite decide_True; [done|]. by right.
    + destruct (decide (scene = (start_time, end_time))) as [->|Hne].
      * rewrite decide_True by (by left). by rewrite lookup_insert_eq.
      * rewrite decide_False by (intros [?|?]%elem_of_cons; done).
        by rewrite lookup_insert_ne.
Qed.

(** The loop stops at the first scene without a duration whose first
    frame can be read. *)
Lemma to_logs_loop_raises (fuel : nat) (name : string) (pre post : list Scene)
    (t : Qc) (frame : Frame) :
  Forall (weighted_scored (S fuel)) pre →
  video (t * f1000) = Some frame →
  ∀ log_file result_dict,
    detect_ad_scenes_from_segments_and_get_all_results_to_logs_loop transform
      (S fuel) video (pre ++ (t, t) :: post) model name log_file result_dict
    = Some (Raised ZeroDivisionError,
            log_file ++ map (fun scene : Scene =>
                               ScoreLine name scene.1 scene.2
                                 (wscore_of (S fuel) scene)) pre).
Proof.
  intros Hpre Hread.
  induction Hpre as [|[start_time end_time] pre Hscene _ IH];
    intros log_file result_dict;
    cbn [app detect_ad_scenes_from_segments_and_get_all_results_to_logs_loop].
  - unfold process_video_segments_weigth.
    erewrite process_video_segments_weigth_loop_zero_duration by done.
    cbn. by rewrite app_nil_r.
  - unfold scene_weighted_scored in Hscene. cbn [fst snd] in Hscene.
    rewrite Hscene, IH. cbn [map fst snd]. by rewrite <- app_assoc.
Qed.

End LogsSpec.

(** X6: when every scene has [start < end], once the iteration bound
    suffices, [detect_ad_scenes_from_segments_and_get_all_results_to_logs]
    appends to the log one line per scene, in scene order, and returns a
    dict whose keys are exactly the scenes; the score in a scene's line is
    the weighted score of the scene, the value the dict holds for it. *)
Theorem to_logs_writes_one_line_per_scene {Frame Tensor : Type}
    (transform : Frame -> Tensor) (video : @Video Frame) (model : @Model Tensor)
    (scenes : list Scene) (name : string) (log_file : list output_line) :
  Forall (fun scene : Scene => scene.1 < scene.2) scenes →
  ∃ fuel0, ∀ fuel, (fuel0 < fuel)%nat →
    let score := scene_weighted_score transform fuel video model in
    ∃ result_dict : gmap Scene Qc,
      detect_ad_scenes_from_segments_and_get_all_results_to_logs transform fuel
        video scenes model name log_file
      = Some (Returned result_dict,
              log_file ++ map (fun scene : Scene =>
                                 ScoreLine name scene.1 scene.2 (score scene))
                            scenes)
      ∧ dom result_dict = list_to_set scenes
      ∧ ∀ scene, scene ∈ scenes →
          result_dict !! scene = Some (score scene)
          ∧ process_video_segments_weigth transform fuel video model scene.1
              scene.2 f0_5 = Some (Returned (score scene)).
Proof.
  intros Hscenes.
  destruct (scenes_weighted_scored_eventually transform video model scenes Hscenes)
    as [fuel0 Hfuel0].
  exists fuel0. intros fuel Hfuel score. specialize (Hfuel0 fuel Hfuel).
  destruct (to_logs_loop_spec transform video model fuel name scenes Hfuel0
              log_file ∅) as (result_dict & Hrun & Hlook).
  exists result_dict. split; [exact Hrun|]. split.
  - apply set_eq. intros scene.
    rewrite elem_of_dom, Hlook, elem_of_list_to_set.
    case_decide; [by split|]. rewrite lookup_empty. split; [by intros [? ?]|done].
  - intros scene Hin. split; [by rewrite Hlook, decide_True|].
    by eapply Forall_forall in Hfuel0.
Qed.

Lemma to_logs_writes_one_line_per_scene_witness :
  let scenes : list Scene := [(0, 1); (1, 2)] in
  Forall (fun scene : Scene => scene.1 < scene.2) scenes
  ∧ ∃ fuel0, ∀ fuel, (fuel0 < fuel)%nat →
      let score := scene_weighted_score demo_transform fuel demo_video demo_model in
      ∃ result_dict : gmap Scene Qc,
        detect_ad_scenes_from_segments_and_get_all_results_to_logs demo_transform
          fuel demo_video scenes demo_model "Swin" []
        = Some (Returned result_dict,
                [] ++ map (fun scene : Scene =>
                             ScoreLine "Swin" scene.1 scene.2 (score scene))
                        scenes)
        ∧ dom result_dict = list_to_set scenes
        ∧ ∀ scene, scene ∈ scenes →
            result_dict !! scene = Some (score scene)
            ∧ process_video_segments_weigth demo_transform fuel demo_video
                demo_model scene.1 scene.2 f0_5 = Some (Returned (score scene)).
Proof.
  intros scenes.
  assert (Hscenes : Forall (fun scene : Scene => scene.1 < scene.2) scenes).
  { repeat constructor. }
  split; [exact Hscenes|].
  exact (to_logs_writes_one_line_per_scene demo_transform demo_video demo_model
           scenes "Swin" [] Hscenes).
Defined.

(** X7: when a scene without a duration whose first frame can be read
    follows scenes with [start < end], once the iteration bound suffices
    the call raises ZeroDivisionError at that scene: the log has received
    the lines of the scenes before it and no dict is returned. *)
Theorem to_logs_keeps_lines_before_failure {Frame Tensor : Type}
    (transform : Frame -> Tensor) (video : @Video Frame) (model : @Model Tensor)
    (pre post : list Scene) (t : Qc) (frame : Frame) (name : string)
    (log_file : list output_line) :
  Forall (fun scene : Scene => scene.1 < scene.2) pre →
  video (t * f1000) = Some frame →
  ∃ fuel0, ∀ fuel, (fuel0 < fuel)%nat →
    detect_ad_scenes_from_segments_and_get_all_results_to_logs transform fuel video
      (pre ++ (t, t) :: post) model name log_file
    = Some (Raised ZeroDivisionError,
            log_file ++ map (fun scene : Scene =>
                               ScoreLine name scene.1 scene.2
                                 (scene_weighted_score transform fuel video model
                                    scene)) pre).
Proof.
  intros Hpre Hread.
  destruct (scenes_weighted_scored_eventually transform video model pre Hpre)
    as [fuel0 Hfuel0].
  exists fuel0. intros fuel Hfuel. specialize (Hfuel0 fuel Hfuel).
  destruct fuel as [|fuel]; [lia|].
  by eapply to_logs_loop_raises.
Qed.

Lemma to_logs_keeps_lines_before_failure_witness :
  Forall (fun scene : Scene => scene.1 < scene.2) [((0 : Qc), (1 : Qc))]
  ∧ still_video (1 * f1000) = Some 0%nat
  ∧ ∃ fuel0, ∀ fuel, (fuel0 < fuel)%nat →
      detect_ad_scenes_from_segments_and_get_all_results_to_logs demo_transform
        fuel still_video ([(0, 1)] ++ (1, 1) :: [(1, 2)]) demo_model "Swin" []
      = Some (Raised ZeroDivisionError,
              [] ++ map (fun scene : Scene =>
                           ScoreLine "Swin" scene.1 scene.2
                             (scene_weighted_score demo_transform fuel still_video
                                demo_model scene)) [(0, 1)]).
Proof.
  assert (Hpre : Forall (fun scene : Scene => scene.1 < scene.2)
                   [((0 : Qc), (1 : Qc))]) by repeat constructor.
  split; [exact Hpre|]. split; [reflexivity|].
  exact (to_logs_keeps_lines_before_failure demo_transform still_video demo_model
           [(0, 1)] [(1, 2)] 1 0%nat "Swin" [] Hpre eq_refl).
Defined.

(** ** The analysis as a whole *)

(** X8: for a worker that is not stopped, once the iteration bound
    suffices, [_analyze_video] returns the scenes that the decision rule
    (base 12.5, boost 10) selects from the unweighted scores of the
    scenes, in scene order; scenes need not be distinct. *)
Theorem analyze_video_selects_by_scene_scores {Frame Tensor : Type}
    (transform : Frame -> Tensor) (running : nat -> bool) (video : @Video Frame)
    (model : @Model Tensor) (scenes : list Scene) :
  (∀ n, running n = true) →
  ∃ fuel0, ∀ fuel, (fuel0 < fuel)%nat →
    _analyze_video transform running fuel video model scenes
    = Some (Returned (ad_subsequence f12_5 f10
                        (map (scene_score transform video model fuel) scenes) 0
                        scenes)).
Proof.
  intros Hrun.
  destruct (scenes_scored_eventually transform video model scenes) as [fuel0 Hfuel0].
  exists fuel0. intros fuel Hfuel. by apply _analyze_video_spec, Hfuel0.
Qed.

Lemma analyze_video_selects_by_scene_scores_witness :
  (∀ n, (fun _ : nat => true) n = true)
  ∧ ∃ fuel0, ∀ fuel, (fuel0 < fuel)%nat →
      _analyze_video demo_transform (fun _ => true) fuel demo_video demo_model
        [(0, 1); (1, 2)]
      = Some (Returned (ad_subsequence f12_5 f10
                          (map (scene_score demo_transform demo_video demo_model fuel)
                             [(0, 1); (1, 2)]) 0 [(0, 1); (1, 2)])).
Proof.
  split; [done|].
  apply (analyze_video_selects_by_scene_scores demo_transform (fun _ => true)
           demo_video demo_model [(0, 1); (1, 2)]).
  done.
Defined.

Lemma ad_subsequence_sublist (base_thresh boost : Qc) (scores : list Qc)
    (scenes : list Scene) :
  ∀ i, sublist (ad_subsequence base_thresh boost scores i scenes) scenes.
Proof.
  induction scenes as [|scene scenes IH]; intros i; cbn [ad_subsequence]; [done|].
  case_decide; [by apply sublist_skip|by apply sublist_cons].
Qed.

Lemma _analyze_video_scores_length (preds : gmap Scene Qc) (scenes : list Scene) :
  ∀ scores,
    _analyze_video_scores preds scenes = Returned scores →
    length scores = length scenes.
Proof.
  induction scenes as [|[start_time end_time] scenes IH]; intros scores;
    cbn [_analyze_video_scores].
  - by intros [= <-].
  - destruct (dict_getitem _ _); [|done]. cbn [mbind result_bind].
    destruct (_analyze_video_scores preds scenes); [|done].
    cbn [mbind result_bind]. intros [= <-]. cbn [length]. f_equal. by apply IH.
Qed.

(** X9: whatever the worker flag reads at each poll and whatever the
    iteration bound, a list returned by [_analyze_video] is a sublist of
    the scene list: it holds scenes of the list only, in the order of the
    list. *)
Theorem analyze_video_returns_sublist_of_scenes {Frame Tensor : Type}
    (transform : Frame -> Tensor) (running : nat -> bool) (fuel : nat)
    (video : @Video Frame) (model : @Model Tensor) (scenes preds_final : list Scene) :
  _analyze_video transform running fuel video model scenes
  = Some (Returned preds_final) →
  sublist preds_final scenes.
Proof.
  unfold _analyze_video. case_bool_decide; [intros [= <-]; apply sublist_nil_l|].
  destruct (_analyze_video_score _ _ _ _ _ _ _) as [[[preds tick]|e]|] eqn:Hscore;
    cbn [mbind option_bind result_bind]; [|done..].
  case_bool_decide; [intros [= <-]; apply sublist_nil_l|].
  destruct (_analyze_video_scores preds scenes) as [scores|e] eqn:Hscores;
    cbn [mbind result_bind]; [|done].
  apply _analyze_video_scores_length in Hscores.
  destruct (_analyze_video_decide_stopped running f12_5 f10 scores scenes
              (eq_sym Hscores) scores 0 tick [] eq_refl)
    as (m & _ & _ & _ & ->).
  cbn [app drop]. intros [= <-].
  etrans; [apply ad_subsequence_sublist|]. apply sublist_take.
Qed.

Lemma analyze_video_returns_sublist_of_scenes_witness :
  _analyze_video demo_transform (fun _ => true) 4 demo_video demo_model
    [(0, 1); (1, 2)] = Some (Returned [(0, 1)])
  ∧ sublist [((0 : Qc), (1 : Qc))] [(0, 1); (1, 2)].
Proof.
  assert (Hrun : _analyze_video demo_transform (fun _ => true) 4 demo_video
                   demo_model [(0, 1); (1, 2)] = Some (Returned [(0, 1)]))
    by by_evaluation.
  split; [exact Hrun|].
  exact (analyze_video_returns_sublist_of_scenes demo_transform (fun _ => true) 4
           demo_video demo_model [(0, 1); (1, 2)] [(0, 1)] Hrun).
Defined.

(** ** Stopping the worker while the scores are collected *)

Section StoppedCollection.

Context {Frame Tensor : Type}.
Variable transform : Frame -> Tensor.
Variable running : nat -> bool.
Variable video : @Video Frame.
Variable model : @Model Tensor.
Variable fuel : nat.

Local Abbreviation score_of := (scene_score transform video model fuel).
Local Abbreviation scored := (scene_scored transform video model fuel).
Local Abbreviation future_of := (scene_future transform video model fuel).
Local Abbreviation merge_of := (merged transform video model fuel).

Lemma _analyze_video_submit_while_running (scenes : list Scene) :
  Forall scored scenes →
  ∀ tick futures,
    (∀ j, (j < length scenes)%nat → running (tick + j)%nat = true) →
    _analyze_video_submit transform running fuel video model tick scenes futures
    = (futures ++ map future_of scenes, (tick + length scenes)%nat).
Proof.
  induction 1 as [|scene scenes Hscene _ IH]; intros tick futures Hrun;
    cbn [_analyze_video_submit].
  - by rewrite app_nil_r, Nat.add_0_r.
  - rewrite <- (Nat.add_0_r tick) at 1. rewrite Hrun by (cbn; lia). cbn [negb].
    rewrite single_scene_task by done. rewrite IH.
    + cbn [map length]. rewrite <- app_assoc. f_equal. lia.
    + intros j Hj. replace (S tick + j)%nat with (tick + S j)%nat by lia.
      apply Hrun. cbn. lia.
Qed.

Lemma _analyze_video_collect_stopped (scenes : list Scene) :
  ∀ k tick preds,
    (k < length scenes)%nat →
    (∀ j, (j < k)%nat → running (tick + j)%nat = true) →
    running (tick + k)%nat = false →
    _analyze_video_collect running tick (map future_of scenes) preds
    = Some (Returned (merge_of (take k scenes) preds, S (tick + k))).
Proof.
  induction scenes as [|scene scenes IH]; intros k tick preds Hk Hrun Hstop;
    [cbn in Hk; lia|].
  cbn [map _analyze_video_collect]. destruct k as [|k].
  - rewrite Nat.add_0_r in Hstop. rewrite Hstop. cbn [negb take merged foldl].
    by rewrite Nat.add_0_r.
  - rewrite <- (Nat.add_0_r tick) at 1. rewrite Hrun by lia.
    cbn [negb scene_future]. rewrite (IH k).
    + cbn [take merged foldl]. do 3 f_equal. lia.
    + cbn in Hk. lia.
    + intros j Hj. replace (S tick + j)%nat with (tick + S j)%nat by lia.
      apply Hrun. lia.
    + by replace (S tick + k)%nat with (tick + S k)%nat by lia.
Qed.

Lemma _analyze_video_scores_missing (preds : gmap Scene Qc) (scenes : list Scene)
    (scene : Scene) :
  scene ∈ scenes → preds !! scene = None →
  _analyze_video_scores preds scenes = Raised KeyError.
Proof.
  intros Hin Hnone. induction scenes as [|[start_time end_time] scenes IH];
    [by apply elem_of_nil in Hin|].
  cbn [_analyze_video_scores].
  destruct (decide (scene = (start_time, end_time))) as [->|Hne].
  - unfold dict_getitem. rewrite Hnone. reflexivity.
  - apply elem_of_cons in Hin as [?|Hin]; [done|]. rewrite IH by done.
    destruct (dict_getitem preds (start_time, end_time)) as [score|e] eqn:Hget;
      [reflexivity|].
    unfold dict_getitem in Hget. destruct (_ !! _) in Hget; [done|].
    by injection Hget as <-.
Qed.

End StoppedCollection.

(** X10: when the scenes are pairwise distinct and the worker is stopped
    while the scores are being collected, after the first and before the
    last of them, [_analyze_video] does not return a partial result: the
    score map lacks the scenes not yet collected and the call raises
    KeyError. *)
Theorem analyze_video_stopped_while_collecting_raises {Frame Tensor : Type}
    (transform : Frame -> Tensor) (running : nat -> bool) (video : @Video Frame)
    (model : @Model Tensor) (scenes : list Scene) (k : nat) :
  NoDup scenes →
  (0 < k < length scenes)%nat →
  (∀ t, (t < length scenes + k)%nat → running t = true) →
  running (length scenes + k)%nat = false →
  ∃ fuel0, ∀ fuel, (fuel0 < fuel)%nat →
    _analyze_video transform running fuel video model scenes
    = Some (Raised KeyError).
Proof.
  intros Hnodup Hk Hrun Hstop.
  destruct (scenes_scored_eventually transform video model scenes) as [fuel0 Hfuel0].
  exists fuel0. intros fuel Hfuel. specialize (Hfuel0 fuel Hfuel).
  unfold _analyze_video. rewrite bool_decide_eq_false_2.
  2: { intros ->. cbn in Hk. lia. }
  unfold _analyze_video_score.
  rewrite (_analyze_video_submit_while_running transform running video model fuel)
    by (done || (intros; apply Hrun; lia)).
  cbn [app Nat.add].
  rewrite (_analyze_video_collect_stopped transform running video model fuel
             scenes k) by (done || lia || (intros; apply Hrun; lia)).
  cbn [mbind option_bind].
  rewrite (proj2 (forallb_forall _ _)).
  2: { intros future (scene & <- & _)%in_map_iff. by apply bool_decide_eq_true_2. }
  cbn [mbind option_bind result_bind].
  destruct (lookup_lt_is_Some_2 scenes 0) as [scene0 Hscene0]; [lia|].
  destruct (lookup_lt_is_Some_2 scenes k) as [scenek Hscenek]; [lia|].
  rewrite bool_decide_eq_false_2.
  2: { intros Hempty.
       pose proof (merged_lookup transform video model fuel (take k scenes) ∅ scene0)
         as Hlook.
       rewrite Hempty, lookup_empty, decide_True in Hlook; [done|].
       apply list_elem_of_lookup. exists O.
       rewrite lookup_take_lt by lia. done. }
  rewrite (_analyze_video_scores_missing _ scenes scenek); [done| |].
  - by eapply list_elem_of_lookup_2.
  - rewrite merged_lookup, decide_False; [done|].
    intros (j & Hj)%list_elem_of_lookup.
    assert (Hjk : (j < k)%nat).
    { apply lookup_lt_Some in Hj. rewrite length_take in Hj. lia. }
    rewrite lookup_take_lt in Hj by done.
    pose proof (NoDup_lookup _ _ _ _ Hnodup Hj Hscenek). lia.
Qed.

Lemma analyze_video_stopped_while_collecting_raises_witness :
  let scenes : list Scene := [(0, 1); (1, 2)] in
  let running := fun t : nat => bool_decide (t < 3)%nat in
  NoDup scenes
  ∧ (0 < 1 < length scenes)%nat
  ∧ (∀ t, (t < length scenes + 1)%nat → running t = true)
  ∧ running (length scenes + 1)%nat = false
  ∧ ∃ fuel0, ∀ fuel, (fuel0 < fuel)%nat →
      _analyze_video demo_transform running fuel demo_video demo_model scenes
      = Some (Raised KeyError).
Proof.
  intros scenes running.
  assert (Hnodup : NoDup scenes) by by_evaluation.
  assert (Hk : (0 < 1 < length scenes)%nat) by (cbn; lia).
  assert (Hrun : ∀ t, (t < length scenes + 1)%nat → running t = true).
  { intros t Ht. apply bool_decide_eq_true_2. cbn in Ht. lia. }
  split; [exact Hnodup|]. split; [exact Hk|]. split; [exact Hrun|].
  split; [reflexivity|].
  exact (analyze_video_stopped_while_collecting_raises demo_transform running
           demo_video demo_model scenes 1 Hnodup Hk Hrun eq_refl).
Defined.

(** ** Scores that decide on their own *)

Lemma ad_subsequence_elem_of (base_thresh boost : Qc) (scores : list Qc)
    (scenes : list Scene) :
  ∀ k j scene,
    scenes !! j = Some scene →
    (classified_ad base_thresh boost scores (k + j) →
     scene ∈ ad_subsequence base_thresh boost scores k scenes)
    ∧ (NoDup scenes →
       scene ∈ ad_subsequence base_thresh boost scores k scenes →
       classified_ad base_thresh boost scores (k + j)).
Proof.
  induction scenes as [|scene' scenes IH]; intros k j scene Hj; [done|].
  cbn [ad_subsequence]. destruct j as [|j].
  - injection Hj as ->. rewrite Nat.add_0_r. split.
    + intros Had. rewrite decide_True by done. by left.
    + intros Hnodup Hin. apply NoDup_cons in Hnodup as [Hnotin _].
      case_decide as Had; [done|].
      exfalso. apply Hnotin.
      eapply elem_of_sublist; [exact Hin|apply ad_subsequence_sublist].
  - cbn in Hj. destruct (IH (S k) j scene Hj) as [Hfwd Hbwd].
    replace (k + S j)%nat with (S k + j)%nat by lia. split.
    + intros Had. case_decide; [right|]; by apply Hfwd.
    + intros Hnodup Hin. apply NoDup_cons in Hnodup as [Hnotin Hnodup].
      apply Hbwd; [done|]. case_decide; [|done].
      apply elem_of_cons in Hin as [->|Hin]; [|done].
      exfalso. apply Hnotin. by eapply list_elem_of_lookup_2.
Qed.

Lemma effective_threshold_bounds (base_thresh boost : Qc) (scores : list Qc)
    (i : nat) :
  0 ≤ boost →
  base_thresh - boost ≤ effective_threshold base_thresh boost scores i
  ∧ effective_threshold base_thresh boost scores i ≤ base_thresh.
Proof.
  intros Hboost.
  assert (Hle : base_thresh - boost ≤ base_thresh).
  { rewrite <- (Qcplus_0_r base_thresh) at 2. unfold Qcminus.
    apply Qcplus_le_mono_l. apply Qcopp_le_compat in Hboost.
    by replace (- 0) with (0 : Qc) in Hboost by ring. }
  unfold effective_threshold. by case_decide.
Qed.

(** X11: in a decision pass that is not stopped, over pairwise distinct
    scenes, a scene whose score is at least 12.5 is always returned and a
    scene whose score is below 2.5 never is, whatever the scores of its
    neighbours. *)
Theorem decision_pass_score_bounds (running : nat -> bool) (tick : nat)
    (scenes : list Scene) (scores : list Qc) :
  length scenes = length scores →
  (∀ n, running n = true) →
  NoDup scenes →
  ∃ preds_final,
    _analyze_video_decide running tick scenes scores f12_5 f10 0 scores []
    = Returned preds_final
    ∧ ∀ i scene score,
        scenes !! i = Some scene → scores !! i = Some score →
        (f12_5 ≤ score → scene ∈ preds_final)
        ∧ (score < f12_5 - f10 → scene ∉ preds_final).
Proof.
  intros Hlen Hrun Hnodup. eexists. split.
  { by rewrite (_analyze_video_decide_spec running Hrun f12_5 f10 scores scenes
                  Hlen scores 0 tick []). }
  cbn [app drop]. intros i scene score Hscene Hscore.
  destruct (ad_subsequence_elem_of f12_5 f10 scores scenes 0 i scene Hscene)
    as [Hfwd Hbwd].
  destruct (effective_threshold_bounds f12_5 f10 scores i) as [Hlow Hhigh];
    [done|].
  split.
  - intros Hge. apply Hfwd. exists score. split; [done|]. by eapply Qcle_trans.
  - intros Hlt Hin. destruct (Hbwd Hnodup Hin) as (score' & Hscore' & Hthr).
    cbn [Nat.add] in Hscore'. assert (score' = score) as -> by congruence.
    eapply Qclt_not_le; [exact Hlt|]. by eapply Qcle_trans.
Qed.

Lemma decision_pass_score_bounds_witness :
  let scenes : list Scene := [(0, 1); (1, 2); (2, Qc_of_Z 3)] in
  let scores : list Qc := [Qc_of_Z 50; 0; 0] in
  length scenes = length scores
  ∧ (∀ n, (fun _ : nat => true) n = true)
  ∧ NoDup scenes
  ∧ ∃ preds_final,
      _analyze_video_decide (fun _ => true) 0 scenes scores f12_5 f10 0 scores []
      = Returned preds_final
      ∧ ∀ i scene score,
          scenes !! i = Some scene → scores !! i = Some score →
          (f12_5 ≤ score → scene ∈ preds_final)
          ∧ (score < f12_5 - f10 → scene ∉ preds_final).
Proof.
  intros scenes scores.
  assert (Hnodup : NoDup scenes) by by_evaluation.
  split; [reflexivity|]. split; [done|]. split; [exact Hnodup|].
  apply (decision_pass_score_bounds (fun _ => true) 0 scenes scores);
    [reflexivity|done|exact Hnodup].
Defined.

(** ** The model cache *)

Section LoadModelCache.

Context {FS Net StateDict : Type}.
Variable path_exists : FS -> string -> bool.
Variable dirname : string -> string.
Variable extractall : FS -> string -> string -> FS.
Variable create_model : Net.
Variable torch_load : FS -> string -> option StateDict.
Variable load_state_dict : Net -> StateDict -> option Net.
Variable to_device_eval : Net -> Net.

Local Abbreviation load :=
  (load_model path_exists dirname extractall create_model torch_load
     load_state_dict to_device_eval).

(** What a call can do: hit the cache, raise on a name without a path,
    fail to load, or load and cache. *)
Lemma load_model_cases (st st' : loader_state) (model_name : string)
    (r : result (option Net)) :
  load st model_name = (r, st') →
  (∃ model, PRELOADED_MODELS st !! model_name = Some model
            ∧ r = Returned (Some model) ∧ st' = st)
  ∨ (PRELOADED_MODELS st !! model_name = None
     ∧ AVAILABLE_MODELS !! model_name = None
     ∧ r = Raised AttributeError ∧ st' = st)
  ∨ (PRELOADED_MODELS st !! model_name = None
     ∧ is_Some (AVAILABLE_MODELS !! model_name)
     ∧ r = Returned None ∧ PRELOADED_MODELS st' = PRELOADED_MODELS st)
  ∨ (∃ model, PRELOADED_MODELS st !! model_name = None
              ∧ is_Some (AVAILABLE_MODELS !! model_name)
              ∧ r = Returned (Some model)
              ∧ PRELOADED_MODELS st' = <[model_name := model]> (PRELOADED_MODELS st)).
Proof.
  unfold load_model.
  destruct (PRELOADED_MODELS st !! model_name) as [model|] eqn:Hcache.
  { intros [= <- <-]. left. by exists model. }
  destruct (AVAILABLE_MODELS !! model_name) as [path|] eqn:Hpath;
    cbn [method_replace].
  2: { intros [= <- <-]. right. by left. }
  case_bool_decide.
  - destruct (_ ≫= _) as [model|].
    + intros [= <- <-]. do 3 right. exists model. by destruct (path_exists _ _).
    + intros [= <- <-]. right. right. left. by destruct (path_exists _ _).
  - intros [= <- <-]. right. right. left. by destruct (path_exists _ _).
Qed.

End LoadModelCache.

(** X12: a model that [load_model] has returned is cached: the next call
    for the same name returns the same model and leaves the loader state
    as it is, without looking at the file system. *)
Theorem load_model_returns_cached_model {FS Net StateDict : Type}
    (path_exists : FS -> string -> bool) (dirname : string -> string)
    (extractall : FS -> string -> string -> FS) (create_model : Net)
    (torch_load : FS -> string -> option StateDict)
    (load_state_dict : Net -> StateDict -> option Net)
    (to_device_eval : Net -> Net) (st st' : @loader_state FS Net)
    (model_name : string) (model : Net) :
  load_model path_exists dirname extractall create_model torch_load
    load_state_dict to_device_eval st model_name = (Returned (Some model), st') →
  PRELOADED_MODELS st' !! model_name = Some model
  ∧ ∀ (path_exists' : FS -> string -> bool)
      (torch_load' : FS -> string -> option StateDict),
      load_model path_exists' dirname extractall create_model torch_load'
        load_state_dict to_device_eval st' model_name
      = (Returned (Some model), st').
Proof.
  intros Hload.
  assert (Hcached : PRELOADED_MODELS st' !! model_name = Some model).
  { apply load_model_cases in Hload
      as [(m & Hc & [= <-] & ->)|[(_ & _ & [=] & _)|[(_ & _ & [=] & _)
         |(m & _ & _ & [= <-] & ->)]]]; [done|].
    by rewrite lookup_insert_eq. }
  split; [done|]. intros path_exists' torch_load'.
  unfold load_model. by rewrite Hcached.
Qed.

Lemma load_model_returns_cached_model_witness :
  let st : @loader_state unit nat := mkLoader tt ∅ in
  let st' : @loader_state unit nat := mkLoader tt {[ "Swin" := 7%nat ]} in
  load_model (fun _ _ => false) (fun path => path) (fun fs _ _ => fs) 7%nat
    (fun _ _ => Some tt) (fun net _ => Some net) (fun net => net) st "Swin"
  = (Returned (Some 7%nat), st')
  ∧ PRELOADED_MODELS st' !! "Swin" = Some 7%nat
  ∧ ∀ (path_exists' : unit -> string -> bool)
      (torch_load' : unit -> string -> option unit),
      load_model path_exists' (fun path => path) (fun fs _ _ => fs) 7%nat
        torch_load' (fun net _ => Some net) (fun net => net) st' "Swin"
      = (Returned (Some 7%nat), st').
Proof.
  intros st st'.
  assert (Hload : load_model (fun _ _ => false) (fun path => path)
                    (fun fs _ _ => fs) 7%nat (fun _ _ => Some tt)
                    (fun net _ => Some net) (fun net => net) st "Swin"
                  = (Returned (Some 7%nat), st')) by reflexivity.
  split; [exact Hload|].
  exact (load_model_returns_cached_model _ _ _ _ _ _ _ st st' "Swin" 7%nat Hload).
Defined.

(** X13: [load_model] touches the cache only to store the model it is
    about to return: a call that does not return a model leaves the
    cache as it was, a call never changes the entry of another name, and
    a name that is cached keeps its model. *)
Theorem load_model_cache_discipline {FS Net StateDict : Type}
    (path_exists : FS -> string -> bool) (dirname : string -> string)
    (extractall : FS -> string -> string -> FS) (create_model : Net)
    (torch_load : FS -> string -> option StateDict)
    (load_state_dict : Net -> StateDict -> option Net)
    (to_device_eval : Net -> Net) (st st' : @loader_state FS Net)
    (model_name : string) (r : result (option Net)) :
  load_model path_exists dirname extractall create_model torch_load
    load_state_dict to_device_eval st model_name = (r, st') →
  ((∀ model, r ≠ Returned (Some model)) →
   PRELOADED_MODELS st' = PRELOADED_MODELS st)
  ∧ (∀ other, other ≠ model_name →
       PRELOADED_MODELS st' !! other = PRELOADED_MODELS st !! other)
  ∧ (∀ cached, PRELOADED_MODELS st !! model_name = Some cached →
       r = Returned (Some cached) ∧ st' = st).
Proof.
  intros Hload.
  apply load_model_cases in Hload
    as [(m & Hc & -> & ->)|[(Hc & Ha & -> & ->)|[(Hc & Ha & -> & Hst)
       |(m & Hc & Ha & -> & Hst)]]].
  - split; [|split; [done|]].
    + intros Hnot. by destruct (Hnot m).
    + intros cached Hcached. rewrite Hc in Hcached. by injection Hcached as <-.
  - split; [done|]. split; [done|]. intros cached Hcached. congruence.
  - split; [done|]. split; [intros other _; by rewrite Hst|].
    intros cached Hcached. congruence.
  - split; [|split].
    + intros Hnot. by destruct (Hnot m).
    + intros other Hne. by rewrite Hst, lookup_insert_ne.
    + intros cached Hcached. congruence.
Qed.

Lemma load_model_cache_discipline_witness :
  let st : @loader_state unit nat := mkLoader tt {[ "Other" := 3%nat ]} in
  let st' : @loader_state unit nat :=
    mkLoader tt (<[ "Swin" := 7%nat ]> {[ "Other" := 3%nat ]}) in
  load_model (fun _ _ => false) (fun path => path) (fun fs _ _ => fs) 7%nat
    (fun _ _ => Some tt) (fun net _ => Some net) (fun net => net) st "Swin"
  = (Returned (Some 7%nat), st')
  ∧ ((∀ model : nat,
        (Returned (Some 7%nat) : result (option nat)) ≠ Returned (Some model)) →
     PRELOADED_MODELS st' = PRELOADED_MODELS st)
  ∧ (∀ other, other ≠ "Swin" →
       PRELOADED_MODELS st' !! other = PRELOADED_MODELS st !! other)
  ∧ (∀ cached, PRELOADED_MODELS st !! "Swin" = Some cached →
       (Returned (Some 7%nat) : result (option nat)) = Returned (Some cached)
       ∧ st' = st).
Proof.
  intros st st'.
  assert (Hload : load_model (fun _ _ => false) (fun path => path)
                    (fun fs _ _ => fs) 7%nat (fun _ _ => Some tt)
                    (fun net _ => Some net) (fun net => net) st "Swin"
                  = (Returned (Some 7%nat), st')) by reflexivity.
  split; [exact Hload|].
  exact (load_model_cache_discipline (fun _ _ => false) (fun path => path)
           (fun fs _ _ => fs) 7%nat (fun _ _ => Some tt)
           (fun net _ => Some net) (fun net => net) st st' "Swin"
           (Returned (Some 7%nat)) Hload).
Defined.

(** ** Time codes *)

Lemma isdigit_not_special (c : ascii) :
  isdigit c = true →
  isspace c = false ∧ Ascii.eqb ":" c = false ∧ Ascii.eqb c "-" = false
  ∧ Ascii.eqb c "+" = false.
Proof. by destruct c as [[|] [|] [|] [|] [|] [|] [|] [|]]. Qed.

Lemma string_forall_app p (s1 s2 : string) :
  string_forall p (s1 +:+ s2) = string_forall p s1 && string_forall p s2.
Proof.
  induction s1 as [|c s1 IH]; [done|]. simpl. by rewrite IH, andb_assoc.
Qed.

Lemma string_forall_impl (p q : ascii -> bool) (s : string) :
  (∀ c, p c = true → q c = true) →
  string_forall p s = true → string_forall q s = true.
Proof.
  intros Hpq. induction s as [|c s IH]; [done|]. cbn.
  intros [Hc Hs]%andb_prop. by rewrite (Hpq c Hc), IH.
Qed.

Lemma lstrip_no_space (s : string) :
  string_forall (fun c => negb (isspace c)) s = true → lstrip s = s.
Proof. destruct s as [|c s]; [done|]. cbn. by destruct (isspace c). Qed.

Lemma rstrip_no_space (s : string) :
  string_forall (fun c => negb (isspace c)) s = true → rstrip s = s.
Proof.
  induction s as [|c s IH]; [done|]. cbn. intros [Hc Hs]%andb_prop.
  rewrite IH by done. destruct s; [|done]. by destruct (isspace c).
Qed.

Lemma strip_no_space (s : string) :
  string_forall (fun c => negb (isspace c)) s = true → strip s = s.
Proof. intros Hs. unfold strip. by rewrite lstrip_no_space, rstrip_no_space. Qed.

Lemma contains_app c (s1 s2 : string) :
  contains c (s1 +:+ s2) = contains c s1 || contains c s2.
Proof.
  induction s1 as [|c' s1 IH]; [done|]. simpl. by rewrite IH, orb_assoc.
Qed.

Lemma contains_forall c (s : string) :
  string_forall (fun c' => negb (Ascii.eqb c c')) s = true → contains c s = false.
Proof.
  induction s as [|c' s IH]; [done|]. cbn. intros [Hc Hs]%andb_prop.
  rewrite IH by done. by destruct (Ascii.eqb c c').
Qed.

Lemma split_no_separator c (s : string) :
  contains c s = false → split c s = [s].
Proof.
  induction s as [|c' s IH]; [done|]. cbn. intros [Hc Hs]%orb_false_elim.
  by rewrite Hc, IH.
Qed.

Lemma split_at_separator c (s1 s2 : string) :
  contains c s1 = false → split c (s1 +:+ String c s2) = s1 :: split c s2.
Proof.
  induction s1 as [|c' s1 IH]; simpl.
  - intros _. by rewrite Ascii.eqb_refl.
  - intros [Hc Hs]%orb_false_elim. by rewrite Hc, IH.
Qed.

(** The decimal digits of a natural number. *)
Lemma string_of_uint_digits (d : uint) :
  string_forall isdigit (NilEmpty.string_of_uint d) = true.
Proof. induction d; cbn; done. Qed.

Lemma int_digits_all_digits (s : string) :
  string_forall isdigit s = true → s ≠ "" → int_digits false s = Some s.
Proof.
  intros Hs Hne.
  assert (Hgen : ∀ b, (s ≠ "" ∨ b = true) → int_digits b s = Some s).
  { clear Hne. induction s as [|c s IH]; intros b Hb.
    - by destruct Hb as [?| ->].
    - cbn in Hs. apply andb_prop in Hs as [Hc Hs]. cbn. rewrite Hc.
      rewrite IH; by auto. }
  apply Hgen. by left.
Qed.

Lemma decimal_digits_spec (n : N) :
  let digits := NilZero.string_of_uint (N.to_uint n) in
  string_forall isdigit digits = true ∧ digits ≠ ""
  ∧ ∃ d, NilEmpty.uint_of_string digits = Some d ∧ Z.of_uint d = Z.of_N n.
Proof.
  cbn zeta. unfold NilZero.string_of_uint.
  destruct (N.to_uint n) as [|d|d|d|d|d|d|d|d|d|d] eqn:Hd.
  1: { split; [done|]. split; [done|]. exists (D0 Nil). split; [done|].
       apply (f_equal N.of_uint) in Hd. rewrite DecimalN.Unsigned.of_to in Hd.
       by subst n. }
  all: split; [apply string_of_uint_digits|]; (split; [done|]);
    eexists; (split; [apply NilEmpty.usu|]);
    unfold Z.of_uint; rewrite <- Hd; by rewrite DecimalN.Unsigned.of_to.
Qed.

Lemma uint_of_string_zeros (k : nat) (s : string) (d : uint) :
  NilEmpty.uint_of_string s = Some d →
  ∃ d', NilEmpty.uint_of_string
          (String.string_of_list_ascii (replicate k "0"%char) +:+ s) = Some d'
        ∧ Z.of_uint d' = Z.of_uint d.
Proof.
  intros Hs. induction k as [|k (d' & Hd' & Heq)]; [by exists d|].
  exists (D0 d').
  change (String.string_of_list_ascii (replicate (S k) "0"%char) +:+ s)
    with (String "0" (String.string_of_list_ascii (replicate k "0"%char) +:+ s)).
  cbn [NilEmpty.uint_of_string]. rewrite Hd'. split; [done|]. by rewrite <- Heq.
Qed.

Lemma zeros_digits (k : nat) :
  string_forall isdigit (String.string_of_list_ascii (replicate k "0"%char)) = true.
Proof. induction k; [done|]. done. Qed.

Lemma sign_or_digit_not_special (c : ascii) :
  isdigit c || Ascii.eqb c "-" = true →
  negb (isspace c) = true ∧ negb (Ascii.eqb ":" c) = true.
Proof. by destruct c as [[|] [|] [|] [|] [|] [|] [|] [|]]. Qed.

Lemma format_0d_chars (w : nat) (n : Z) :
  string_forall (fun c => isdigit c || Ascii.eqb c "-") (format_0d w n) = true.
Proof.
  unfold format_0d. destruct (decimal_digits_spec (Z.abs_N n)) as (Hdigits & _ & _).
  rewrite !string_forall_app. apply andb_true_intro. split; [|apply andb_true_intro; split].
  - by case_bool_decide.
  - eapply string_forall_impl; [|apply zeros_digits]. by intros c ->.
  - eapply string_forall_impl; [|exact Hdigits]. by intros c ->.
Qed.

Lemma int_unsigned_padded (k : nat) (n : N) :
  int_unsigned (String.string_of_list_ascii (replicate k "0"%char)
                +:+ NilZero.string_of_uint (N.to_uint n)) = Some (Z.of_N n).
Proof.
  destruct (decimal_digits_spec n) as (Hdigits & Hne & d & Hd & Hval).
  destruct (uint_of_string_zeros k _ d Hd) as (d' & Hd' & Hval').
  unfold int_unsigned. rewrite int_digits_all_digits.
  - cbn [mbind option_bind]. rewrite Hd'. cbn [mbind option_bind].
    by rewrite Hval', Hval.
  - rewrite string_forall_app, zeros_digits. done.
  - destruct k; [|done]. done.
Qed.

(** [int] reads back what the zero-padded format writes. *)
Lemma int_format_0d (w : nat) (n : Z) : int_ (format_0d w n) = Some n.
Proof.
  unfold int_. rewrite strip_no_space.
  2: { eapply string_forall_impl; [|apply format_0d_chars].
       intros c Hc. by apply sign_or_digit_not_special in Hc as [? _]. }
  unfold format_0d. case_bool_decide as Hneg.
  - change ("-" +:+ ?s) with (String "-" s). cbn [Ascii.eqb Bool.eqb].
    rewrite int_unsigned_padded. cbn. f_equal. lia.
  - change ("" +:+ ?s) with s.
    pose proof (int_unsigned_padded
                  (w - String.length "" - String.length
                     (NilZero.string_of_uint (N.to_uint (Z.abs_N n))))
                  (Z.abs_N n)) as Hint.
    destruct (decimal_digits_spec (Z.abs_N n)) as (Hdigits & Hne & _).
    set (s := String.string_of_list_ascii _ +:+ _) in *.
    assert (Hs : string_forall isdigit s = true).
    { subst s. by rewrite string_forall_app, zeros_digits. }
    destruct s as [|c s']; [done|].
    cbn in Hs. apply andb_prop in Hs as [Hc _].
    apply isdigit_not_special in Hc as (_ & _ & -> & ->).
    rewrite Hint. f_equal. lia.
Qed.

Lemma Qfloor_unique (x : Q) (k : Z) :
  (inject_Z k <= x)%Q → (x < inject_Z (k + 1))%Q → Qfloor x = k.
Proof.
  intros Hle Hlt.
  pose proof (Qfloor_resp_le _ _ Hle) as Hk. rewrite Qfloor_Z in Hk.
  pose proof (Qfloor_le x) as Hfl.
  assert (Hlt' : (inject_Z (Qfloor x) < inject_Z (k + 1))%Q)
    by by eapply Qle_lt_trans.
  rewrite <- Zlt_Qlt in Hlt'. lia.
Qed.

Lemma int_of_float_of_Z (z : Z) : int_of_float (Qc_of_Z z) = z.
Proof.
  unfold int_of_float. rewrite Qc_this_of_Z.
  case_decide; [apply Qfloor_Z|apply Qceiling_Z].
Qed.

(** Minutes and seconds, as [format_time] computes them, add up to the
    whole seconds of the time. *)
Lemma minutes_and_seconds (seconds : Qc) :
  let minutes := Qfloor (seconds / f60)%Qc in
  let rest := seconds - f60 * Qc_of_Z minutes in
  (minutes * 60 + int_of_float rest)%Z = Qfloor seconds
  ∧ (0 ≤ int_of_float rest < 60)%Z.
Proof.
  intros minutes rest.
  pose proof (Qfloor_le (seconds / f60)%Qc) as Hle.
  pose proof (Qlt_floor (seconds / f60)%Qc) as Hlt.
  fold minutes in Hle, Hlt. rewrite Qc_this_div in Hle, Hlt.
  change (this f60) with 60%Q in Hle, Hlt.
  rewrite inject_Z_plus in Hlt. change (inject_Z 1) with 1%Q in Hlt.
  assert (Hdiv : (this seconds / 60 * 60 == seconds)%Q) by (field; done).
  set (q := (this seconds / 60)%Q) in *.
  assert (Hrest : (this rest == seconds - 60 * inject_Z minutes)%Q).
  { unfold rest. by rewrite Qc_this_minus, Qc_this_mult, Qc_this_of_Z. }
  assert (Hnonneg : 0 ≤ rest).
  { unfold Qcle. rewrite Hrest. change (this 0) with 0%Q. lra. }
  unfold int_of_float. rewrite decide_True by done.
  pose proof (Qfloor_le rest) as Hfl. pose proof (Qlt_floor rest) as Hfl'.
  rewrite inject_Z_plus in Hfl'. change (inject_Z 1) with 1%Q in Hfl'.
  split.
  - symmetry. apply Qfloor_unique.
    + rewrite inject_Z_plus, inject_Z_mult. change (inject_Z 60) with 60%Q. lra.
    + rewrite !inject_Z_plus, inject_Z_mult. change (inject_Z 60) with 60%Q.
      change (inject_Z 1) with 1%Q. lra.
  - assert (H0 : (inject_Z (-1) < inject_Z (Qfloor rest))%Q).
    { change (inject_Z (-1)) with (-1)%Q. lra. }
    assert (H60 : (inject_Z (Qfloor rest) < inject_Z 60)%Q).
    { change (inject_Z 60) with 60%Q. lra. }
    rewrite <- Zlt_Qlt in H0, H60. lia.
Qed.

(** A time written as minutes and seconds is read back as seconds. *)
Lemma parse_time_minutes_seconds (minutes secs : Z) :
  parse_time (format_0d 2 minutes +:+ ":" +:+ format_0d 2 secs)
  = Some (minutes * 60 + secs)%Z.
Proof.
  assert (Hchars : ∀ n, string_forall (fun c => negb (isspace c)) (format_0d 2 n) = true
                        ∧ contains ":" (format_0d 2 n) = false).
  { intros n. pose proof (format_0d_chars 2 n) as Hn. split.
    - eapply string_forall_impl; [|exact Hn].
      intros c Hc. by apply sign_or_digit_not_special.
    - apply contains_forall. eapply string_forall_impl; [|exact Hn].
      intros c Hc. by apply sign_or_digit_not_special. }
  destruct (Hchars minutes) as [Hm1 Hm2], (Hchars secs) as [Hs1 Hs2].
  unfold parse_time.
  rewrite strip_no_space.
  2: { rewrite !string_forall_app, Hm1, Hs1. done. }
  rewrite !contains_app, Hm2, Hs2. simpl contains. simpl orb. cbv iota.
  change (":" +:+ format_0d 2 secs) with (String ":" (format_0d 2 secs)).
  rewrite split_at_separator, split_no_separator by done.
  cbn [map_int mbind option_bind]. rewrite !int_format_0d. done.
Qed.

(** X14: [format_time], then [parse_time]: a time of [seconds] seconds
    that is not negative is written as minutes, a colon and seconds
    below sixty, both with at least two digits, and [parse_time] reads
    that text back as the whole seconds of the time.  No exception is
    raised on the way.  (Floats are read as exact rationals.) *)
Theorem parse_time_reads_format_time (seconds : Qc) :
  0 ≤ seconds →
  ∃ minutes secs : Z,
    format_time seconds
    = Returned (format_0d 2 minutes +:+ ":" +:+ format_0d 2 secs)
    ∧ (0 ≤ minutes)%Z ∧ (0 ≤ secs < 60)%Z
    ∧ (minutes * 60 + secs)%Z = Qfloor seconds
    ∧ parse_time (format_0d 2 minutes +:+ ":" +:+ format_0d 2 secs)
      = Some (Qfloor seconds).
Proof.
  intros Hseconds.
  destruct (minutes_and_seconds seconds) as [Hsum Hsecs]. cbv zeta in Hsum, Hsecs.
  exists (Qfloor (seconds / f60)%Qc),
    (int_of_float (seconds - f60 * Qc_of_Z (Qfloor (seconds / f60)%Qc))).
  split; [|split; [|split; [done|split; [done|]]]].
  - unfold format_time, floordiv, mod_.
    rewrite !decide_False by done. cbn [mbind result_bind mret result_ret].
    by rewrite int_of_float_of_Z.
  - assert (H0 : Qfloor 0 = 0%Z) by done. rewrite <- H0.
    apply Qfloor_resp_le. rewrite Qc_this_div. change (this f60) with 60%Q.
    change (this 0) with 0%Q. unfold Qcle in Hseconds.
    change (this 0) with 0%Q in Hseconds.
    apply Qle_shift_div_l; [done|]. lra.
  - by rewrite parse_time_minutes_seconds, Hsum.
Qed.

Lemma parse_time_reads_format_time_witness :
  ∃ minutes secs : Z,
    format_time (Qc_of_Z 251 / Qc_of_Z 2)
    = Returned (format_0d 2 minutes +:+ ":" +:+ format_0d 2 secs)
    ∧ (0 ≤ minutes)%Z ∧ (0 ≤ secs < 60)%Z
    ∧ (minutes * 60 + secs)%Z = Qfloor (Qc_of_Z 251 / Qc_of_Z 2)%Qc
    ∧ parse_time (format_0d 2 minutes +:+ ":" +:+ format_0d 2 secs)
      = Some (Qfloor (Qc_of_Z 251 / Qc_of_Z 2)%Qc).
Proof. apply (parse_time_reads_format_time (Qc_of_Z 251 / Qc_of_Z 2)). by_evaluation. Defined.

(** A text is cut at its first separator. *)
Lemma split_cases c (s : string) :
  (contains c s = false ∧ split c s = [s])
  ∨ (∃ s1 s2, s = s1 +:+ String c s2 ∧ contains c s1 = false
              ∧ split c s = s1 :: split c s2).
Proof.
  destruct (contains c s) eqn:Hs.
  2: { left. split; [done|]. by apply split_no_separator. }
  right. induction s as [|c' s IH]; [done|].
  cbn in Hs. destruct (Ascii.eqb c c') eqn:Hc.
  - apply Ascii.eqb_eq in Hc as <-. exists EmptyString, s.
    split; [done|]. split; [done|]. cbn. by rewrite Ascii.eqb_refl.
  - destruct (IH Hs) as (s1 & s2 & -> & Hs1 & Hsplit).
    exists (String c' s1), s2. split; [done|]. split.
    + cbn. by rewrite Hc.
    + apply (split_at_separator c (String c' s1) s2). cbn. by rewrite Hc.
Qed.

Lemma split_nonempty c (s : string) : split c s ≠ [].
Proof.
  destruct s as [|c' s]; [done|]. cbn.
  destruct (Ascii.eqb c c'); [done|]. by destruct (split c s).
Qed.

Lemma map_int_length (parts : list string) (ns : list Z) :
  map_int parts = Some ns → length ns = length parts.
Proof.
  revert ns. induction parts as [|part parts IH]; intros ns Hns.
  - by injection Hns as <-.
  - cbn in Hns. destruct (int_ part) as [n|]; [|done].
    destruct (map_int parts) as [ns'|]; [|done].
    cbn in Hns. injection Hns as <-. cbn. f_equal. by apply IH.
Qed.

(** X15: What [parse_time] accepts: after stripping, either a text
    without a colon that [int] reads, or two texts that [int] reads with
    one colon between them, which count as minutes and seconds; the
    seconds need not be below sixty.  Every other text, a text with two
    colons among them, gives [None]. *)
Theorem parse_time_accepts (text : string) (n : Z) :
  parse_time text = Some n ↔
  (contains ":" (strip text) = false ∧ int_ (strip text) = Some n)
  ∨ (∃ (a b : string) (minutes secs : Z),
       strip text = a +:+ ":" +:+ b
       ∧ contains ":" a = false ∧ contains ":" b = false
       ∧ int_ a = Some minutes ∧ int_ b = Some secs
       ∧ n = (minutes * 60 + secs)%Z).
Proof.
  unfold parse_time.
  destruct (split_cases ":" (strip text)) as [[Hno Hsplit]|(a & b & Htext & Ha & Hsplit)].
  - rewrite Hno. split; [by left|]. intros [[_ Hn]|(a & b & m & s & Htext & _)]; [done|].
    rewrite Htext, contains_app in Hno. cbn in Hno.
    by rewrite orb_true_r in Hno.
  - assert (Hcontains : contains ":" (strip text) = true).
    { rewrite Htext, contains_app. cbn. by rewrite orb_true_r. }
    rewrite Hcontains, Hsplit. split.
    + intros Hn. right.
      destruct (split_cases ":" b) as [[Hb Hsplitb]|(b1 & b2 & Hb & Hb1 & Hsplitb)].
      * rewrite Hsplitb in Hn. cbn [map_int mbind option_bind] in Hn.
        destruct (int_ a) as [m|] eqn:Hm; [|done].
        destruct (int_ b) as [s|] eqn:Hs; [|done].
        cbn in Hn. injection Hn as <-. by exists a, b, m, s.
      * exfalso. rewrite Hsplitb in Hn.
        destruct (map_int (a :: b1 :: split ":" b2)) as [ns|] eqn:Hns; [|done].
        apply map_int_length in Hns. cbn [length] in Hns.
        pose proof (split_nonempty ":" b2) as Hne.
        destruct (split ":" b2) as [|p ps]; [done|]. cbn [length] in Hns.
        by destruct ns as [|n1 [|n2 [|n3 ns]]].
    + intros [[Hno _]|(a' & b' & m & s & Htext' & Ha' & Hb' & Hm & Hs & ->)].
      { by rewrite Hno in Hcontains. }
      assert (Hsplit' : split ":" (strip text) = [a'; b']).
      { rewrite Htext'. change (":" +:+ b') with (String ":" b').
        by rewrite split_at_separator, split_no_separator. }
      rewrite Hsplit in Hsplit'. rewrite Hsplit'.
      cbn [map_int mbind option_bind]. rewrite Hm, Hs. done.
Qed.

(** ** The ad segments on the slider *)

Lemma _calculate_segments_loop_spec (groove_rect : QRect) (width_multiplier : Qc)
    (ad_timestamps : list Scene) (segments : list QRect) :
  _calculate_segments_loop groove_rect width_multiplier ad_timestamps segments
  = segments ++
    ((fun scene : Scene =>
        let start_pos := int_of_float (scene.1 * width_multiplier) in
        let end_pos := int_of_float (scene.2 * width_multiplier) in
        mkQRect (rect_x groove_rect + start_pos) (rect_y groove_rect)
          (end_pos - start_pos) (rect_height groove_rect)) <$> ad_timestamps).
Proof.
  revert segments.
  induction ad_timestamps as [|[start_time end_time] ad_timestamps IH];
    intros segments; cbn [_calculate_segments_loop fmap list_fmap].
  - by rewrite app_nil_r.
  - rewrite IH, <- app_assoc. done.
Qed.

Lemma int_of_float_mono (x y : Qc) :
  0 ≤ x → x ≤ y → (0 ≤ int_of_float x ≤ int_of_float y)%Z.
Proof.
  intros Hx Hxy. assert (Hy : 0 ≤ y) by (by trans x).
  unfold int_of_float. rewrite !decide_True by done.
  split.
  - change 0%Z with (Qfloor 0). by apply Qfloor_resp_le.
  - by apply Qfloor_resp_le.
Qed.

(** X16: [_calculate_segments]: for a positive total duration and ad
    scenes that lie within it, no exception is raised, one rectangle is
    returned for every scene, and every rectangle lies within the groove: it starts at or after the groove's
    left edge, its width is not negative, it ends at or before the
    groove's right edge, and it has the groove's top and height. *)
Theorem calculate_segments_lie_within_groove (ad_timestamps : list Scene)
    (total_duration : Qc) (groove_rect : QRect) :
  0 < total_duration →
  (0 ≤ rect_width groove_rect)%Z →
  Forall (fun scene : Scene => 0 ≤ scene.1 ∧ scene.1 ≤ scene.2
                               ∧ scene.2 ≤ total_duration) ad_timestamps →
  ∃ segments,
    _calculate_segments ad_timestamps total_duration groove_rect = Returned segments
    ∧ length segments = length ad_timestamps
    ∧ Forall (fun segment_rect =>
                (rect_x groove_rect ≤ rect_x segment_rect)%Z
                ∧ (0 ≤ rect_width segment_rect)%Z
                ∧ (rect_x segment_rect + rect_width segment_rect
                   ≤ rect_x groove_rect + rect_width groove_rect)%Z
                ∧ rect_y segment_rect = rect_y groove_rect
                ∧ rect_height segment_rect = rect_height groove_rect) segments.
Proof.
  intros Hduration Hwidth Hscenes. unfold _calculate_segments.
  assert (Hne : total_duration ≠ 0) by (by intros ->).
  destruct (bool_decide (ad_timestamps = [])) eqn:Hempty.
  { apply bool_decide_eq_true in Hempty as ->. by exists []. }
  rewrite bool_decide_eq_false_2 by done.
  cbn [orb]. unfold truediv. rewrite decide_False by done.
  cbn [mbind result_bind mret result_ret].
  eexists. split; [done|]. rewrite _calculate_segments_loop_spec. cbn [app].
  split; [by rewrite length_fmap|].
  apply Forall_fmap. eapply Forall_impl; [exact Hscenes|].
  intros [start_time end_time] (Hstart & Hle & Hend). cbn in *.
  set (m := Qc_of_Z (rect_width groove_rect) / total_duration).
  assert (Hm : 0 ≤ m).
  { unfold m, Qcdiv. apply Qcmult_nonneg_nonneg.
    - rewrite <- Z2Qc_inj_0. by apply (proj1 (Z2Qc_inj_le _ _)).
    - apply Qclt_le_weak. by apply Qcinv_pos. }
  assert (Htotal : total_duration * m = Qc_of_Z (rect_width groove_rect)).
  { unfold m. by field. }
  assert (H1 : 0 ≤ start_time * m) by (by apply Qcmult_nonneg_nonneg).
  assert (H2 : start_time * m ≤ end_time * m) by (by apply Qcmult_le_compat_r).
  assert (H3 : end_time * m ≤ Qc_of_Z (rect_width groove_rect)).
  { rewrite <- Htotal. by apply Qcmult_le_compat_r. }
  pose proof (int_of_float_mono _ _ H1 H2) as [H4 H5].
  pose proof (int_of_float_mono (end_time * m) _ (Qcle_trans _ _ _ H1 H2) H3) as [_ H6].
  rewrite int_of_float_of_Z in H6. lia.
Qed.

Lemma calculate_segments_lie_within_groove_witness :
  let ad_timestamps : list Scene :=
    [(Qc_of_Z 0, Qc_of_Z 1); (Qc_of_Z 3 / Qc_of_Z 2, Qc_of_Z 2)] in
  let groove_rect := mkQRect 10 20 100 8 in
  ∃ segments,
    _calculate_segments ad_timestamps (Qc_of_Z 4) groove_rect = Returned segments
    ∧ length segments = length ad_timestamps
    ∧ Forall (fun segment_rect =>
                (rect_x groove_rect ≤ rect_x segment_rect)%Z
                ∧ (0 ≤ rect_width segment_rect)%Z
                ∧ (rect_x segment_rect + rect_width segment_rect
                   ≤ rect_x groove_rect + rect_width groove_rect)%Z
                ∧ rect_y segment_rect = rect_y groove_rect
                ∧ rect_height segment_rect = rect_height groove_rect) segments.
Proof.
  intros ad_timestamps groove_rect.
  apply (calculate_segments_lie_within_groove ad_timestamps (Qc_of_Z 4) groove_rect).
  - by_evaluation.
  - cbn. lia.
  - repeat constructor; by_evaluation.
Defined.
